(** * DataConnection: chunked transfer, reassembly and the paced send loop

    A shallow embedding of [DataConnection] (the data-channel connection
    class of the SDK): its constructor, the channel handlers installed by
    [_setupMessageHandlers], the inbound handler [_handleDataMessage], the
    outbound [send] with its slicing loop, and the interval callback armed
    by [_startSendLoop].

    JavaScript is single threaded: every handler runs to completion, so a
    handler is a function from the connection state to the next state and
    a completion (normal return, exception, or a loop that never ends).
    What the environment decides (whether [_dc.send] throws, the id drawn
    by [util.randomId], when a [FileReader] finishes) is an argument of
    the step it influences; whether the application listens for 'error'
    is part of the connection state. *)

From Stdlib Require Import ZArith Lia.
From stdpp Require Import gmap strings list fin_maps.

Local Open Scope Z_scope.
#[local] Set Warnings "-register-all".

(** ** Values *)

(** The bytes held by a [Blob] or an [ArrayBuffer]. *)
Definition blob := list Byte.byte.

(** The JavaScript values that travel through a connection.  [JObject]
    is an instance of a class with the given constructor name and own
    properties; [JBlob] is a [Blob] with its declared content type. *)
Inductive jsval :=
| JUndefined
| JNull
| JBool (b : bool)
| JNum (n : Z)
| JStr (s : string)
| JBuffer (b : blob)
| JBlob (mime : string) (b : blob)
| JObject (ctor : string) (props : list (string * jsval)).

(** The numbers [Math.ceil] of a quotient of two integers can return. *)
Inductive jsnum := Fin (z : Z) | PosInf | NegInf | NaN.

(** [data === undefined || data === null] *)
Definition is_undefined_or_null (data : jsval) : bool :=
  match data with JUndefined | JNull => true | _ => false end.

(** [data.constructor.name] *)
Definition constructor_name (data : jsval) : string :=
  match data with
  | JUndefined | JNull => EmptyString
  | JBool _ => "Boolean"
  | JNum _ => "Number"
  | JStr _ => "String"
  | JBuffer _ => "ArrayBuffer"
  | JBlob _ _ => "Blob"
  | JObject ctor _ => ctor
  end.

Fixpoint assoc (k : string) (l : list (string * jsval)) : option jsval :=
  match l with
  | [] => None
  | (k', v) :: l' => if String.eqb k k' then Some v else assoc k l'
  end.

(** [data.name], kept when it is a string. *)
Definition name_of (data : jsval) : option string :=
  match data with
  | JObject _ props =>
      match assoc "name" props with Some (JStr s) => Some s | _ => None end
  | _ => None
  end.

(** [data instanceof Blob], and then [data.type]. *)
Definition blob_type (data : jsval) : option string :=
  match data with JBlob mime _ => Some mime | _ => None end.

(** [Blob.prototype.slice(start, end)]: both ends are clamped to the blob,
    a negative end counts from the back. *)
Definition Blob_slice (b : blob) (start end_ : Z) : blob :=
  let size := Z.of_nat (length b) in
  let rel (x : Z) := if x <? 0 then Z.max (size + x) 0 else Z.min x size in
  let span := Z.max (rel end_ - rel start) 0 in
  take (Z.to_nat span) (drop (Z.to_nat (rel start)) b).

(** [Math.ceil(size / chunkSize)] on integer operands.  Division by zero
    gives an infinity, or NaN for 0/0.  For operands below 2^53 in
    magnitude the rounded quotient has the ceiling of the exact one; a
    negative zero is not told apart from zero (the loop test is the same). *)
Definition Math_ceil_div (size chunkSize : Z) : jsnum :=
  if chunkSize =? 0 then
    if size =? 0 then NaN else if 0 <? size then PosInf else NegInf
  else Fin (- ((- size) / chunkSize)).

(** ** Wire envelope and reassembly table *)

(** [dataMeta] as [send] builds it before slicing: what [sizeof] measures. *)
Record dataMeta := {
  dm_id : string;
  dm_type : string;
  dm_size : Z;
  dm_totalParts : jsnum;
  dm_name : option string;
  dm_mimeType : option string;
}.

(** [dataMeta] once [index] and [data] are set: one chunk on the wire. *)
Record chunk := {
  meta : dataMeta;
  index : Z;
  data : blob;
}.

(** A JavaScript array of buffers: its elements (an unset element is a
    hole) and the properties stored under keys that are not array
    indices. *)
Record jsarray := {
  elems : list (option blob);
  props : list (Z * blob);
}.

(** [new Array(n)]: [n] holes, or a RangeError ([None]) when [n] is not a
    valid array length. *)
Definition new_Array (n : jsnum) : option jsarray :=
  match n with
  | Fin z =>
      if decide (0 <= z < 2 ^ 32)
      then Some {| elems := replicate (Z.to_nat z) None; props := [] |}
      else None
  | _ => None
  end.

(** [a[i] = v]: inside the array the element is overwritten, past its end
    the array grows with holes, and a key that is no array index becomes
    an ordinary property. *)
Definition array_set (a : jsarray) (i : Z) (v : blob) : jsarray :=
  if decide (0 <= i < 2 ^ 32 - 1) then
    let k := Z.to_nat i in
    if decide (k < length (elems a))%nat
    then {| elems := <[k := Some v]> (elems a); props := props a |}
    else {| elems := elems a ++ replicate (k - length (elems a)) None ++ [Some v];
            props := props a |}
  else {| elems := elems a; props := (i, v) :: props a |}.

(** Modelled from the spec: [util.joinArrayBuffers] is not among the
    sources.  The spec says the parts are concatenated in index order into
    one contiguous byte sequence; a hole contributes no byte. *)
Definition joinArrayBuffers (a : jsarray) : blob :=
  concat (map (fun p => default [] p) (elems a)).

(** One entry of [_receivedData]. *)
Record transfer := {
  t_size : Z;
  t_type : string;
  t_name : option string;
  t_mimeType : option string;
  t_totalParts : jsnum;
  t_parts : jsarray;
  t_receivedParts : Z;
}.

(** ** External collaborators *)

(** The pieces [DataConnection] takes from [./util], from [object-sizeof],
    from [enum] and from the runtime.  [None] from a JSON function is a
    thrown exception.  [packChunk] is [util.pack] on an envelope and
    [unpackChunk] is [util.unpack] on an inbound binary message.
    [SERIALIZATIONS_get key] tells whether
    [DataConnection.SERIALIZATIONS.get(key)] is truthy.  [inherited id]
    tells whether reading [id] on a plain object that has no such
    property of its own gives a truthy member inherited from
    [Object.prototype] (as 'constructor' does). *)
Class Util := {
  maxChunkSize : Z;
  pack : jsval -> blob;
  unpack : blob -> jsval;
  packChunk : chunk -> blob;
  unpackChunk : jsval -> chunk;
  sizeof : dataMeta -> Z;
  JSON_parse : jsval -> option jsval;
  JSON_stringify : jsval -> option jsval;
  SERIALIZATIONS_get : string -> bool;
  inherited : string -> bool;
}.

(** ** Connection state *)

Inductive serialization_mode := binary | binary_utf8 | json | none.

Inductive event :=
| EvOpen
| EvData (v : jsval)
| EvError (message : string).

Inductive completion :=
| Normal
| Thrown (error : string)
| Diverges.

(** The fields of a [DataConnection] the handlers touch, the [FileReader]
    reads in flight ([reads], oldest first), two traces (the events
    emitted and the messages [_dc.send] accepted), and whether a listener
    for 'error' is attached to the connection. *)
Record conn := {
  serialization : serialization_mode;
  open : bool;
  _sendBuffer : list jsval;
  _receivedData : gmap string transfer;
  _queuedMessages : list jsval;
  sendInterval : bool;
  reads : list blob;
  emitted : list event;
  channel : list jsval;
  error_listener : bool;
}.

Definition set_open (b : bool) (c : conn) : conn :=
  {| serialization := serialization c; open := b;
     _sendBuffer := _sendBuffer c; _receivedData := _receivedData c;
     _queuedMessages := _queuedMessages c; sendInterval := sendInterval c;
     reads := reads c; emitted := emitted c; channel := channel c;
     error_listener := error_listener c |}.

Definition set_sendBuffer (q : list jsval) (c : conn) : conn :=
  {| serialization := serialization c; open := open c;
     _sendBuffer := q; _receivedData := _receivedData c;
     _queuedMessages := _queuedMessages c; sendInterval := sendInterval c;
     reads := reads c; emitted := emitted c; channel := channel c;
     error_listener := error_listener c |}.

Definition set_receivedData (t : gmap string transfer) (c : conn) : conn :=
  {| serialization := serialization c; open := open c;
     _sendBuffer := _sendBuffer c; _receivedData := t;
     _queuedMessages := _queuedMessages c; sendInterval := sendInterval c;
     reads := reads c; emitted := emitted c; channel := channel c;
     error_listener := error_listener c |}.

Definition set_sendInterval (b : bool) (c : conn) : conn :=
  {| serialization := serialization c; open := open c;
     _sendBuffer := _sendBuffer c; _receivedData := _receivedData c;
     _queuedMessages := _queuedMessages c; sendInterval := b;
     reads := reads c; emitted := emitted c; channel := channel c;
     error_listener := error_listener c |}.

Definition set_reads (r : list blob) (c : conn) : conn :=
  {| serialization := serialization c; open := open c;
     _sendBuffer := _sendBuffer c; _receivedData := _receivedData c;
     _queuedMessages := _queuedMessages c; sendInterval := sendInterval c;
     reads := r; emitted := emitted c; channel := channel c;
     error_listener := error_listener c |}.

(** [c'] is [c] with [es] appended to the emitted events. *)
Definition add_events (es : list event) (c : conn) : conn :=
  {| serialization := serialization c; open := open c;
     _sendBuffer := _sendBuffer c; _receivedData := _receivedData c;
     _queuedMessages := _queuedMessages c; sendInterval := sendInterval c;
     reads := reads c; emitted := emitted c ++ es; channel := channel c;
     error_listener := error_listener c |}.

(** [c] with its emitted events replaced. *)
Definition set_emitted (es : list event) (c : conn) : conn :=
  {| serialization := serialization c; open := open c;
     _sendBuffer := _sendBuffer c; _receivedData := _receivedData c;
     _queuedMessages := _queuedMessages c; sendInterval := sendInterval c;
     reads := reads c; emitted := es; channel := channel c;
     error_listener := error_listener c |}.

(** [this.emit(event, ...)], inherited from the event emitter.  An
    'error' event raised while no listener for 'error' is attached is
    thrown instead, with the error as the exception; any other event is
    raised whether or not somebody listens. *)
Definition emit (e : event) (c : conn) : conn * completion :=
  match e with
  | EvError message =>
      if error_listener c then (add_events [e] c, Normal)
      else (c, Thrown message)
  | _ => (add_events [e] c, Normal)
  end.

(** [connection.on(name, listener)], as far as the model sees it. *)
Definition on (name : string) (c : conn) : conn :=
  if String.eqb name "error" then
    {| serialization := serialization c; open := open c;
       _sendBuffer := _sendBuffer c; _receivedData := _receivedData c;
       _queuedMessages := _queuedMessages c; sendInterval := sendInterval c;
       reads := reads c; emitted := emitted c; channel := channel c;
       error_listener := true |}
  else c.

(** [_dc.send(msg)] when it does not throw. *)
Definition dc_send (msg : jsval) (c : conn) : conn :=
  {| serialization := serialization c; open := open c;
     _sendBuffer := _sendBuffer c; _receivedData := _receivedData c;
     _queuedMessages := _queuedMessages c; sendInterval := sendInterval c;
     reads := reads c; emitted := emitted c; channel := channel c ++ [msg];
     error_listener := error_listener c |}.

(** ** Constructor and channel handlers *)

(** How the handlers dispatch on the stored serialization: they compare
    it with 'none' and with 'json', and anything else takes the binary
    path. *)
Definition mode_of_key (key : string) : serialization_mode :=
  if String.eqb key "none" then none
  else if String.eqb key "json" then json
  else if String.eqb key "binary-utf8" then binary_utf8
  else binary.

(** The constructor, from [options.serialization] and
    [options.queuedMessages]; [None] is the thrown 'Invalid
    serialization'.  An absent or empty serialization is falsy and gives
    the default.  A new connection is not open and nobody listens to it
    yet. *)
Definition constructor `{U : Util} (opt_serialization : option string)
    (opt_queuedMessages : option (list jsval)) : option conn :=
  let mk (s : serialization_mode) :=
    {| serialization := s; open := false;
       _sendBuffer := []; _receivedData := ∅;
       _queuedMessages := default [] opt_queuedMessages;
       sendInterval := false; reads := []; emitted := []; channel := [];
       error_listener := false |} in
  match opt_serialization with
  | Some key =>
      if String.eqb key EmptyString then Some (mk binary)
      else if SERIALIZATIONS_get key then Some (mk (mode_of_key key))
      else None
  | None => Some (mk binary)
  end.

(** [_dc.onopen] *)
Definition onopen (c : conn) : conn := (emit EvOpen (set_open true c)).1.

(** ** The send loop *)

(** [_startSendLoop]: arm the interval unless one is armed. *)
Definition _startSendLoop (c : conn) : conn :=
  if sendInterval c then c else set_sendInterval true c.

(** [Array.prototype.shift]: the head, [undefined] on an empty array. *)
Definition shift (q : list jsval) : jsval * list jsval :=
  match q with
  | [] => (JUndefined, [])
  | m :: q' => (m, q')
  end.

(** The interval callback.  [ok] tells whether [_dc.send] returns ([true])
    or throws ([false]) at this tick. *)
Definition tick (ok : bool) (c : conn) : conn :=
  let '(currMsg, rest) := shift (_sendBuffer c) in
  let c1 := set_sendBuffer rest c in
  let c2 := if ok then dc_send currMsg c1
            else set_sendBuffer (_sendBuffer c1 ++ [currMsg]) c1 in
  if decide (length (_sendBuffer c2) = 0%nat)
  then set_sendInterval false c2
  else c2.

(** The timer fires the callback only while the interval is armed. *)
Definition interval_fires (ok : bool) (c : conn) : conn :=
  if sendInterval c then tick ok c else c.

(** A run of timer periods, one [_dc.send] outcome per period. *)
Definition run_ticks (oks : list bool) (c : conn) : conn :=
  foldl (fun c ok => interval_fires ok c) c oks.

(** ** Outbound: [send] *)

Definition not_open_message : string :=
  "Connection is not open. You should listen for the `open` event before sending messages.".

(** [this._sendBuffer.push(msg)] *)
Definition push (msg : jsval) (c : conn) : conn :=
  set_sendBuffer (_sendBuffer c ++ [msg]) c.

(** The slicing loop of [send], from [sliceIndex] for [remaining] more
    iterations: the envelope built at each iteration, in loop order. *)
Fixpoint slice_loop (packedData : blob) (dataMeta : dataMeta) (chunkSize : Z)
    (sliceIndex : Z) (remaining : nat) : list chunk :=
  match remaining with
  | O => []
  | S k =>
      {| meta := dataMeta;
         index := sliceIndex;
         data := Blob_slice packedData (sliceIndex * chunkSize)
                   ((sliceIndex + 1) * chunkSize) |}
      :: slice_loop packedData dataMeta chunkSize (sliceIndex + 1) k
  end.

Section Handlers.
Context {U : Util}.

(** The envelope header [send] builds for [data], with [totalParts]
    still 0: the object [sizeof] is applied to. *)
Definition header (id : string) (data : jsval) : dataMeta :=
  let type := constructor_name data in
  {| dm_id := id;
     dm_type := type;
     dm_size := Z.of_nat (length (pack data));
     dm_totalParts := Fin 0;
     dm_name := if String.eqb type "file" then name_of data else None;
     dm_mimeType := blob_type data |}.

Definition with_totalParts (n : jsnum) (m : dataMeta) : dataMeta :=
  {| dm_id := dm_id m; dm_type := dm_type m; dm_size := dm_size m;
     dm_totalParts := n; dm_name := dm_name m; dm_mimeType := dm_mimeType m |}.

(** [chunkSize] and [numSlices] as [send] computes them. *)
Definition chunkSize_of (id : string) (data : jsval) : Z :=
  maxChunkSize - sizeof (header id data).

Definition numSlices_of (id : string) (data : jsval) : jsnum :=
  Math_ceil_div (dm_size (header id data)) (chunkSize_of id data).

(** The envelopes the loop of [send] produces when [numSlices] is the
    finite number [n]. *)
Definition chunks (id : string) (data : jsval) (n : Z) : list chunk :=
  slice_loop (pack data) (with_totalParts (Fin n) (header id data))
    (chunkSize_of id data) 0 (Z.to_nat n).

(** [send(data)]; [id] is the value [util.randomId()] returns.  In the
    binary modes every envelope is packed at once and handed to
    [util.blobToArrayBuffer]; the read finishes later (see
    [blobToArrayBuffer_done]).  With [numSlices] infinite the loop test
    holds at every index and the call never returns. *)
Definition send (id : string) (data : jsval) (c : conn) : conn * completion :=
  if negb (open c) then emit (EvError not_open_message) c
  else if is_undefined_or_null data then (c, Normal)
  else
    match serialization c with
    | none => (_startSendLoop (push data c), Normal)
    | json =>
        match JSON_stringify data with
        | Some text => (_startSendLoop (push text c), Normal)
        | None => (c, Thrown "TypeError")
        end
    | binary | binary_utf8 =>
        match numSlices_of id data with
        | Fin n =>
            (set_reads (reads c ++ map packChunk (chunks id data n)) c, Normal)
        | PosInf => (c, Diverges)
        | NegInf | NaN => (c, Normal)
        end
    end.

(** The callback [send] gave to [util.blobToArrayBuffer], run when the
    oldest read in flight finishes. *)
Definition blobToArrayBuffer_done (c : conn) : conn :=
  match reads c with
  | [] => c
  | ab :: rest => _startSendLoop (push (JBuffer ab) (set_reads rest c))
  end.

(** ** Inbound: [_handleDataMessage] *)

(** The entry created for an unseen id. *)
Definition new_transfer (m : dataMeta) : option transfer :=
  (fun parts =>
     {| t_size := dm_size m; t_type := dm_type m; t_name := dm_name m;
        t_mimeType := dm_mimeType m; t_totalParts := dm_totalParts m;
        t_parts := parts; t_receivedParts := 0 |})
  <$> new_Array (dm_totalParts m).

(** [currData.receivedParts++; currData.parts[index] = data] *)
Definition store (ch : chunk) (t : transfer) : transfer :=
  {| t_size := t_size t; t_type := t_type t; t_name := t_name t;
     t_mimeType := t_mimeType t; t_totalParts := t_totalParts t;
     t_parts := array_set (t_parts t) (index ch) (data ch);
     t_receivedParts := t_receivedParts t + 1 |}.

(** [currData.receivedParts === currData.totalParts] *)
Definition is_complete (t : transfer) : bool :=
  match t_totalParts t with
  | Fin n => t_receivedParts t =? n
  | _ => false
  end.

(** What [currData] is after the lookup and the creation: an entry of
    the table (found, or just created), an inherited member of the plain
    object that holds the table (then nothing is created), or nothing
    because [new Array] threw. *)
Inductive currData :=
| Entry (t : transfer)
| Member
| NoArray.

(** [currData] for an envelope.  The table is a plain object read with
    the envelope's id: an own entry is found first, then an inherited
    member, and only an id that names neither gets a new entry. *)
Definition currData_of (ch : chunk) (c : conn) : currData :=
  match _receivedData c !! dm_id (meta ch) with
  | Some t => Entry t
  | None =>
      if inherited (dm_id (meta ch)) then Member
      else match new_transfer (meta ch) with
           | Some t => Entry t
           | None => NoArray
           end
  end.

(** The binary branch of [_handleDataMessage], on the unpacked envelope.
    On an inherited member the count is written on that member, which is
    no part of the connection, and the write to its [parts], which is
    undefined, throws. *)
Definition reassemble (ch : chunk) (c : conn) : conn * completion :=
  let id := dm_id (meta ch) in
  match currData_of ch c with
  | NoArray => (c, Thrown "RangeError")
  | Member => (c, Thrown "TypeError")
  | Entry t =>
      let currData := store ch t in
      if is_complete currData then
        let ab := joinArrayBuffers (t_parts currData) in
        emit (EvData (unpack ab))
          (set_receivedData (delete id (_receivedData c)) c)
      else (set_receivedData (<[id := currData]> (_receivedData c)) c, Normal)
  end.

(** [_handleDataMessage(msg)], on [msg.data]. *)
Definition _handleDataMessage (msg_data : jsval) (c : conn) : conn * completion :=
  match serialization c with
  | none => emit (EvData msg_data) c
  | json =>
      match JSON_parse msg_data with
      | Some v => emit (EvData v) c
      | None => (c, Thrown "SyntaxError")
      end
  | binary | binary_utf8 => reassemble (unpackChunk msg_data) c
  end.

(** Envelopes handled one after the other while the handler returns
    normally; the run is cut at the first one that does not. *)
Fixpoint deliver (chs : list chunk) (c : conn) : conn * completion :=
  match chs with
  | [] => (c, Normal)
  | ch :: rest =>
      match reassemble ch c with
      | (c', Normal) => deliver rest c'
      | stopped => stopped
      end
  end.

(** Messages handled one after the other; a handler that throws leaves
    the state as it was when it threw and the next message is handled. *)
Definition handle_all (msgs : list jsval) (c : conn) : conn :=
  foldl (fun c msg => (_handleDataMessage msg c).1) c msgs.

(** What a run of [send] calls leaves behind; [calls] pairs each value
    with the id drawn for it. *)
Definition send_all (calls : list (string * jsval)) (c : conn) : conn :=
  foldl (fun c call => (send call.1 call.2 c).1) c calls.

End Handlers.

(** ** Envelopes of one transfer *)

(** The envelope of index [i] of a transfer with header [m] whose payload
    is cut into [slices]. *)
Definition envelope (m : dataMeta) (slices : list blob) (i : nat) : chunk :=
  {| meta := m; index := Z.of_nat i; data := slices !!! i |}.

(** The slots after the envelopes of indices [order] were stored. *)
Definition fill (slices : list blob) (l : list (option blob)) (order : list nat)
    : list (option blob) :=
  foldl (fun l i => <[i := Some (slices !!! i)]> l) l order.

(** The table entry of header [m] with slots [l] after [r] envelopes. *)
Definition entry (m : dataMeta) (l : list (option blob)) (r : Z) : transfer :=
  {| t_size := dm_size m; t_type := dm_type m; t_name := dm_name m;
     t_mimeType := dm_mimeType m; t_totalParts := dm_totalParts m;
     t_parts := {| elems := l; props := [] |};
     t_receivedParts := r |}.

(** [c] with a live entry for the header [m]: slots [l], count [r]. *)
Definition at_entry (m : dataMeta) (c : conn) (l : list (option blob)) (r : Z)
    : conn :=
  set_receivedData (<[dm_id m := entry m l r]> (_receivedData c)) c.

(** ** A concrete setting

    The scenario of the specification: messages of at most 1000 bytes and
    a metadata footprint of 50 bytes.  Buffers are packed as their own
    bytes.  An envelope is packed as one byte of [totalParts], one byte
    of [index] and the data (one transfer at a time, of fewer than 256
    parts); a message too short for that unpacks to an envelope without a
    usable [totalParts].  The JSON functions know the literals [null],
    [true] and [false] only. *)

Definition byte_of_Z (z : Z) : Byte.byte :=
  default Byte.x00 (Byte.of_N (Z.to_N z)).

Definition Z_of_byte (b : Byte.byte) : Z := Z.of_N (Byte.to_N b).

Definition wire_header (totalParts : jsnum) : dataMeta :=
  {| dm_id := EmptyString; dm_type := "ArrayBuffer"; dm_size := 0;
     dm_totalParts := totalParts; dm_name := None; dm_mimeType := None |}.

Definition scenario : Util := {|
  maxChunkSize := 1000;
  pack v := match v with JBuffer b | JBlob _ b => b | _ => [] end;
  unpack b := JBuffer b;
  packChunk ch :=
    byte_of_Z (match dm_totalParts (meta ch) with Fin n => n | _ => 0 end)
    :: byte_of_Z (index ch) :: data ch;
  unpackChunk v :=
    match v with
    | JBuffer (tp :: ix :: d) =>
        {| meta := wire_header (Fin (Z_of_byte tp));
           index := Z_of_byte ix; data := d |}
    | _ => {| meta := wire_header NaN; index := 0; data := [] |}
    end;
  sizeof _ := 50;
  JSON_parse v :=
    match v with
    | JStr s =>
        if String.eqb s "null" then Some JNull
        else if String.eqb s "true" then Some (JBool true)
        else if String.eqb s "false" then Some (JBool false)
        else None
    | _ => None
    end;
  JSON_stringify v :=
    match v with
    | JNull => Some (JStr "null")
    | JBool true => Some (JStr "true")
    | JBool false => Some (JStr "false")
    | _ => None
    end;
  SERIALIZATIONS_get key :=
    bool_decide (key ∈ ["binary"; "binary-utf8"; "json"; "none"]);
  inherited id :=
    bool_decide (id ∈ ["constructor"; "hasOwnProperty"; "isPrototypeOf";
                       "propertyIsEnumerable"; "toLocaleString"; "toString";
                       "valueOf"; "__proto__"; "__defineGetter__";
                       "__defineSetter__"; "__lookupGetter__";
                       "__lookupSetter__"]);
|}.

(** An open connection with nothing queued. *)
Definition opened (s : serialization_mode) : conn :=
  {| serialization := s; open := true;
     _sendBuffer := []; _receivedData := ∅; _queuedMessages := [];
     sendInterval := false; reads := []; emitted := []; channel := [];
     error_listener := false |}.

(** The scenario of the specification: 2200 bytes, at most 1000 bytes a
    message, 50 bytes of metadata. *)
Definition payload_2200 : jsval := JBuffer (replicate 2200 Byte.x00).

(** The scenario with a bound of 40 bytes, below the 50 bytes of metadata. *)
Definition narrow : Util := {|
  maxChunkSize := 40;
  pack := pack (Util := scenario);
  unpack := unpack (Util := scenario);
  packChunk := packChunk (Util := scenario);
  unpackChunk := unpackChunk (Util := scenario);
  sizeof := sizeof (Util := scenario);
  JSON_parse := JSON_parse (Util := scenario);
  JSON_stringify := JSON_stringify (Util := scenario);
  SERIALIZATIONS_get := SERIALIZATIONS_get (Util := scenario);
  inherited := inherited (Util := scenario);
|}.

(** The header of a two-part transfer whose id is the name of a member
    every plain object inherits. *)
Definition constructor_parts : dataMeta :=
  {| dm_id := "constructor"; dm_type := "ArrayBuffer"; dm_size := 3;
     dm_totalParts := Fin 2; dm_name := None; dm_mimeType := None |}.

(** Headers of a two-part and of a three-part transfer. *)
Definition two_parts : dataMeta :=
  {| dm_id := "t"; dm_type := "ArrayBuffer"; dm_size := 3;
     dm_totalParts := Fin 2; dm_name := None; dm_mimeType := None |}.

Definition three_parts : dataMeta :=
  {| dm_id := "t"; dm_type := "ArrayBuffer"; dm_size := 3;
     dm_totalParts := Fin 3; dm_name := None; dm_mimeType := None |}.

(** A setting whose envelopes survive the wire, for transfers of id "t"
    with fewer than 256 parts of a buffer of fewer than 256 bytes: one
    byte each of [totalParts], [index] and [size], then the data.  At
    most 52 bytes a message, 50 of them metadata. *)
Definition framed : Util := {|
  maxChunkSize := 52;
  pack := pack (Util := scenario);
  unpack := unpack (Util := scenario);
  packChunk ch :=
    byte_of_Z (match dm_totalParts (meta ch) with Fin n => n | _ => 0 end)
    :: byte_of_Z (index ch) :: byte_of_Z (dm_size (meta ch)) :: data ch;
  unpackChunk v :=
    match v with
    | JBuffer (tp :: ix :: sz :: d) =>
        {| meta := {| dm_id := "t"; dm_type := "ArrayBuffer";
                      dm_size := Z_of_byte sz;
                      dm_totalParts := Fin (Z_of_byte tp);
                      dm_name := None; dm_mimeType := None |};
           index := Z_of_byte ix; data := d |}
    | _ => {| meta := wire_header NaN; index := 0; data := [] |}
    end;
  sizeof := sizeof (Util := scenario);
  JSON_parse := JSON_parse (Util := scenario);
  JSON_stringify := JSON_stringify (Util := scenario);
  SERIALIZATIONS_get := SERIALIZATIONS_get (Util := scenario);
  inherited := inherited (Util := scenario);
|}.

Definition payload_3 : jsval := JBuffer [Byte.x01; Byte.x02; Byte.x03].

(** Headers announcing no part, and a negative number of parts. *)
Definition zero_parts : dataMeta :=
  {| dm_id := "z"; dm_type := "ArrayBuffer"; dm_size := 0;
     dm_totalParts := Fin 0; dm_name := None; dm_mimeType := None |}.

Definition minus_one_parts : dataMeta :=
  {| dm_id := "m"; dm_type := "ArrayBuffer"; dm_size := 0;
     dm_totalParts := Fin (-1); dm_name := None; dm_mimeType := None |}.

(** "a" then "b" queued in mode 'none', the interval armed. *)
Definition queued_ab : conn :=
  set_sendInterval true (set_sendBuffer [JStr "a"; JStr "b"] (opened none)).

(** ** Invariants and runs *)

(** The interval is armed exactly while something is queued. *)
Definition loop_ok (c : conn) : Prop :=
  sendInterval c = match _sendBuffer c with [] => false | _ => true end.

(** What the table guarantees of a live entry: [totalParts] is an array
    length, at least one envelope was counted, and the count is below
    [totalParts] unless the transfer was announced with no part at all. *)
Definition entry_ok (t : transfer) : Prop :=
  exists n : Z,
    t_totalParts t = Fin n /\ 0 <= n < 2 ^ 32 /\
    1 <= t_receivedParts t /\ (t_receivedParts t < n \/ n = 0).

Definition table_ok (c : conn) : Prop :=
  map_Forall (fun _ t => entry_ok t) (_receivedData c).

(** Envelopes handled one after the other; one that makes the handler
    throw leaves the state as it was and the next one is handled. *)
Definition ingest_all `{U : Util} (chs : list chunk) (c : conn) : conn :=
  foldl (fun c ch => (reassemble ch c).1) c chs.

(** The events the handling of [ch] adds to those of [c]. *)
Definition step_events `{U : Util} (ch : chunk) (c : conn) : list event :=
  drop (length (emitted c)) (emitted (reassemble ch c).1).

(** The events that the envelopes of id [a] add in a run of envelopes. *)
Fixpoint events_of `{U : Util} (a : string) (chs : list chunk) (c : conn)
    : list event :=
  match chs with
  | [] => []
  | ch :: rest =>
      (if decide (dm_id (meta ch) = a) then step_events ch c else [])
      ++ events_of a rest (reassemble ch c).1
  end.

(** The read completions of [k] envelopes. *)
Definition reads_done (k : nat) (c : conn) : conn :=
  Nat.iter k blobToArrayBuffer_done c.

(** * The send loop *)

Lemma tick_ok (c : conn) (m : jsval) (q : list jsval) :
  _sendBuffer c = m :: q ->
  _sendBuffer (tick true c) = q /\
  channel (tick true c) = channel c ++ [m] /\
  sendInterval (tick true c) = (if q is [] then false else sendInterval c).
Proof.
  intros Hq. unfold tick. rewrite Hq. simpl.
  destruct q; simpl; auto.
Qed.

(** A message whose hand-off throws goes back behind everything queued. *)
Lemma tick_failed (c : conn) (m : jsval) (q : list jsval) :
  _sendBuffer c = m :: q ->
  _sendBuffer (tick false c) = q ++ [m] /\
  channel (tick false c) = channel c /\
  sendInterval (tick false c) = sendInterval c.
Proof.
  intros Hq. unfold tick. rewrite Hq. simpl.
  case_decide as Hlen; simpl; auto.
  rewrite length_app in Hlen. simpl in Hlen. lia.
Qed.

Lemma run_ticks_cons (ok : bool) (oks : list bool) (c : conn) :
  run_ticks (ok :: oks) c = run_ticks oks (interval_fires ok c).
Proof. reflexivity. Qed.

(** When every hand-off succeeds the queue leaves in order. *)
Lemma run_ticks_all_ok (q : list jsval) (c : conn) :
  _sendBuffer c = q -> sendInterval c = true ->
  channel (run_ticks (replicate (length q) true) c) = channel c ++ q /\
  _sendBuffer (run_ticks (replicate (length q) true) c) = [].
Proof.
  revert c. induction q as [|m q IH]; intros c Hq Harmed.
  - simpl. rewrite app_nil_r. auto.
  - cbn [length replicate]. rewrite run_ticks_cons.
    unfold interval_fires. rewrite Harmed.
    destruct (tick_ok c m q Hq) as (Hb & Hc & Hi).
    destruct q as [|m' q'].
    + simpl. rewrite Hb, Hc. auto.
    + rewrite Harmed in Hi.
      destruct (IH (tick true c) Hb Hi) as (IHc & IHb).
      rewrite IHc, IHb, Hc, <- app_assoc. auto.
Qed.

(** C1 (evaluation at a failing input): on an open connection in mode
    'none', "a" then "b" are queued in that order; the hand-off of "a"
    throws once and every later hand-off succeeds.  "a" is put back, not
    dropped, but behind "b": the channel receives "b" before "a". *)
Theorem send_loop_retry_reorders :
  let c2 := (send (U := scenario) "id2" (JStr "b")
               (send (U := scenario) "id1" (JStr "a") (opened none)).1).1 in
  let c5 := run_ticks [false; true; true] c2 in
  _sendBuffer c2 = [JStr "a"; JStr "b"] /\
  _sendBuffer (run_ticks [false] c2) = [JStr "b"; JStr "a"] /\
  channel c5 = [JStr "b"; JStr "a"] /\
  _sendBuffer c5 = [] /\
  sendInterval c5 = false.
Proof. repeat split; reflexivity. Qed.

(** Mode 'none', connection open: "hello" reaches the channel as it is,
    in one message. *)
Example send_none_hello :
  let c1 := (send (U := scenario) "id" (JStr "hello") (opened none)).1 in
  _sendBuffer c1 = [JStr "hello"] /\
  channel (run_ticks [true] c1) = [JStr "hello"] /\
  _sendBuffer (run_ticks [true] c1) = [].
Proof. repeat split; reflexivity. Qed.

(** One failed hand-off of the head, then success throughout: everything
    queued behind the head is transmitted before it. *)
Lemma retry_goes_last (c : conn) (m : jsval) (q : list jsval) :
  _sendBuffer c = m :: q -> sendInterval c = true ->
  channel (run_ticks (false :: replicate (length (q ++ [m])) true) c)
  = channel c ++ q ++ [m].
Proof.
  intros Hq Harmed. rewrite run_ticks_cons.
  unfold interval_fires. rewrite Harmed.
  destruct (tick_failed c m q Hq) as (Hb & Hc & Hi).
  rewrite Harmed in Hi.
  destruct (run_ticks_all_ok (q ++ [m]) (tick false c) Hb Hi) as [-> _].
  by rewrite Hc.
Qed.

(** * [send] on a connection that is not open, and on no value *)

Section SendGuards.
Context {U : Util}.

Lemma add_events_nil (c : conn) : add_events [] c = c.
Proof. destruct c. unfold add_events. simpl. by rewrite app_nil_r. Qed.

Lemma add_events_app (es es' : list event) (c : conn) :
  add_events es' (add_events es c) = add_events (es ++ es') c.
Proof. unfold add_events. simpl. by rewrite app_assoc. Qed.

Lemma send_not_open (id : string) (data : jsval) (c : conn) :
  open c = false ->
  send id data c = emit (EvError not_open_message) c.
Proof. intros Hc. unfold send. by rewrite Hc. Qed.

(** The errors [calls] raise on a connection that is not open, as events
    when somebody listens for 'error'. *)
Lemma send_all_not_open (calls : list (string * jsval)) (c : conn) :
  open c = false ->
  send_all calls c
  = add_events (if error_listener c
                then map (fun _ => EvError not_open_message) calls
                else []) c.
Proof.
  revert c. induction calls as [|[id v] calls IH]; intros c Hc.
  - simpl. destruct (error_listener c); by rewrite add_events_nil.
  - unfold send_all in *. cbn [foldl fst snd].
    rewrite (send_not_open id v c Hc). unfold emit.
    destruct (error_listener c) eqn:Hl; cbn [fst].
    + rewrite IH by exact Hc. cbn [add_events error_listener].
      rewrite Hl. by rewrite add_events_app.
    + rewrite IH by exact Hc. by rewrite Hl.
Qed.

Lemma tick_set_emitted (ok : bool) (es : list event) (c : conn) :
  tick ok (set_emitted es c) = set_emitted es (tick ok c).
Proof.
  unfold tick. cbn [set_emitted _sendBuffer].
  destruct (shift (_sendBuffer c)) as [m rest].
  destruct ok; cbn; case_decide; reflexivity.
Qed.

Lemma run_ticks_set_emitted (oks : list bool) (es : list event) (c : conn) :
  run_ticks oks (set_emitted es c) = set_emitted es (run_ticks oks c).
Proof.
  revert c. induction oks as [|ok oks IH]; intros c; [reflexivity|].
  rewrite !run_ticks_cons. unfold interval_fires. cbn [set_emitted sendInterval].
  destruct (sendInterval c); [|apply IH].
  rewrite tick_set_emitted. apply IH.
Qed.

Lemma onopen_add_events (es : list event) (c : conn) :
  onopen (add_events es c)
  = set_emitted (emitted c ++ es ++ [EvOpen]) (onopen c).
Proof.
  unfold onopen, emit, add_events, set_open, set_emitted. simpl.
  by rewrite app_assoc.
Qed.

End SendGuards.




(** C10: on an open connection, [send] of [undefined] or [null] returns
    normally and changes nothing, in every serialization mode: nothing is
    queued, nothing is transmitted, no event is emitted. *)
Theorem send_nothing_is_noop `{U : Util} (id : string) (data : jsval) (c : conn) :
  open c = true ->
  data = JUndefined \/ data = JNull ->
  send id data c = (c, Normal).
Proof.
  intros Hc Hd. unfold send. rewrite Hc.
  by destruct Hd as [-> | ->].
Qed.

Lemma send_nothing_is_noop_witness :
  send (U := scenario) "id" JNull (opened json) = (opened json, Normal).
Proof.
  apply (send_nothing_is_noop (U := scenario) "id" JNull (opened json)).
  - reflexivity.
  - right. reflexivity.
Defined.

(** C8 (counterexample): in mode 'none', "hello" is sent on a newly
    constructed connection, which is not open, once a listener for
    'error' is attached.  The value is in no buffer afterwards, and when
    the channel opens nothing is transmitted, whatever the timer does. *)
Lemma send_before_open_counterexample :
  exists c0,
    constructor (U := scenario) (Some "none") None = Some c0 /\
    let c1 := (send (U := scenario) "id" (JStr "hello") (on "error" c0)).1 in
    let c2 := onopen c1 in
    open c0 = false /\
    _sendBuffer c1 = [] /\ _queuedMessages c1 = [] /\ reads c1 = [] /\
    emitted c1 = [EvError not_open_message] /\
    open c2 = true /\ _sendBuffer c2 = [] /\ sendInterval c2 = false /\
    channel (run_ticks [true; true; true] c2) = [].
Proof. eexists. split; [reflexivity|]. repeat split; reflexivity. Qed.

(** C8 (as amended): values sent while the connection is not open are
    not held anywhere.  Each call only raises the not-open error (as an
    event when a listener for 'error' is attached, as an exception
    otherwise); the send queue, the queued messages and the reads in
    flight stay as they were, and once the channel opens the send loop
    transmits exactly what it would have transmitted had the calls not
    been made. *)
Theorem send_before_open_is_dropped `{U : Util}
    (calls : list (string * jsval)) (c : conn) :
  open c = false ->
  let c' := send_all calls c in
  _sendBuffer c' = _sendBuffer c /\
  _queuedMessages c' = _queuedMessages c /\
  reads c' = reads c /\
  emitted c'
  = emitted c ++ (if error_listener c
                  then map (fun _ => EvError not_open_message) calls
                  else []) /\
  forall oks : list bool,
    channel (run_ticks oks (onopen c')) = channel (run_ticks oks (onopen c)) /\
    _sendBuffer (run_ticks oks (onopen c'))
    = _sendBuffer (run_ticks oks (onopen c)).
Proof.
  intros Hc c'. subst c'. rewrite (send_all_not_open calls c Hc).
  repeat split; try reflexivity.
  - by rewrite onopen_add_events, run_ticks_set_emitted.
  - by rewrite onopen_add_events, run_ticks_set_emitted.
Qed.

Lemma send_before_open_is_dropped_witness :
  let c := on "error" (set_open false (opened none)) in
  let c' := send_all (U := scenario) [("id1", JStr "x"); ("id2", JStr "y")] c in
  _sendBuffer c' = _sendBuffer c /\
  _queuedMessages c' = _queuedMessages c /\
  reads c' = reads c /\
  emitted c'
  = emitted c ++ map (fun _ => EvError not_open_message)
                     [("id1", JStr "x"); ("id2", JStr "y")] /\
  forall oks : list bool,
    channel (run_ticks oks (onopen c')) = channel (run_ticks oks (onopen c)) /\
    _sendBuffer (run_ticks oks (onopen c'))
    = _sendBuffer (run_ticks oks (onopen c)).
Proof.
  apply (send_before_open_is_dropped (U := scenario)
           [("id1", JStr "x"); ("id2", JStr "y")]
           (on "error" (set_open false (opened none)))).
  reflexivity.
Defined.

(** Once the connection is open, mode 'none' queues the values in the
    order of the calls. *)
Lemma send_all_open_none `{U : Util} (calls : list (string * jsval)) (c : conn) :
  open c = true -> serialization c = none ->
  Forall (fun call => is_undefined_or_null call.2 = false) calls ->
  _sendBuffer (send_all calls c) = _sendBuffer c ++ map snd calls.
Proof.
  revert c. induction calls as [|[id v] calls IH]; intros c Ho Hs Hv.
  - simpl. by rewrite app_nil_r.
  - inversion Hv as [|? ? Hv1 Hv2]; subst. simpl in Hv1.
    unfold send_all in *. cbn [foldl fst snd].
    unfold send at 2. rewrite Ho, Hv1, Hs. cbn [negb fst].
    rewrite IH; [| | |exact Hv2].
    + unfold _startSendLoop, push. simpl.
      destruct (sendInterval c); simpl; by rewrite <- app_assoc.
    + unfold _startSendLoop, push. simpl. by destruct (sendInterval c).
    + unfold _startSendLoop, push. simpl. by destruct (sendInterval c).
Qed.

(** * Malformed text in mode 'json' *)

(** C9 (counterexample): the text "{" arrives on an open connection in
    mode 'json'.  [JSON.parse] throws and the exception leaves the
    handler; no error event is emitted. *)
Lemma json_malformed_counterexample :
  JSON_parse (Util := scenario) (JStr "{") = None /\
  _handleDataMessage (U := scenario) (JStr "{") (opened json)
  = (opened json, Thrown "SyntaxError") /\
  emitted (_handleDataMessage (U := scenario) (JStr "{") (opened json)).1 = [].
Proof. repeat split; reflexivity. Qed.

(** C9 (as amended): when the text of a message in mode 'json' does not
    parse, the exception of [JSON.parse] propagates out of the handler.
    No data event and no error event is emitted and the connection is
    unchanged, so it is as open and usable as before. *)
Theorem json_malformed_throws `{U : Util} (msg_data : jsval) (c : conn) :
  serialization c = json ->
  JSON_parse msg_data = None ->
  _handleDataMessage msg_data c = (c, Thrown "SyntaxError").
Proof. intros Hs Hp. unfold _handleDataMessage. by rewrite Hs, Hp. Qed.

Lemma json_malformed_throws_witness :
  _handleDataMessage (U := scenario) (JStr "{") (opened json)
  = (opened json, Thrown "SyntaxError").
Proof.
  apply (json_malformed_throws (U := scenario) (JStr "{") (opened json));
    reflexivity.
Defined.

(** * The slicing loop of [send] *)

Lemma ceil_div_pos (s c : Z) : 0 < c -> - ((- s) / c) = (s + c - 1) / c.
Proof.
  intros Hc.
  pose proof (Z.div_mod (- s) c ltac:(lia)) as H1.
  pose proof (Z.mod_pos_bound (- s) c Hc) as H2.
  apply (Z.div_unique _ _ _ (c - 1 - (- s) mod c)); lia.
Qed.

Lemma ceil_div_bounds (s c : Z) :
  0 < c -> 0 <= s ->
  let n := (s + c - 1) / c in
  0 <= n /\ s <= n * c /\ (0 < s -> (n - 1) * c < s) /\ (0 < n -> 0 < s).
Proof.
  intros Hc Hs n.
  pose proof (Z.div_mod (s + c - 1) c ltac:(lia)) as H1.
  pose proof (Z.mod_pos_bound (s + c - 1) c Hc) as H2.
  fold n in H1. nia.
Qed.

Lemma slice_loop_length (pd : blob) (m : dataMeta) (sz from : Z) (k : nat) :
  length (slice_loop pd m sz from k) = k.
Proof. revert from. induction k as [|k IH]; intros from; simpl; [|rewrite IH]; done. Qed.

Lemma slice_loop_lookup (pd : blob) (m : dataMeta) (sz from : Z) (k i : nat) :
  (i < k)%nat ->
  slice_loop pd m sz from k !! i
  = Some {| meta := m; index := from + Z.of_nat i;
            data := Blob_slice pd ((from + Z.of_nat i) * sz)
                      ((from + Z.of_nat i + 1) * sz) |}.
Proof.
  revert from i. induction k as [|k IH]; intros from i Hi; [lia|].
  destruct i as [|i]; simpl.
  - by rewrite Z.add_0_r.
  - rewrite IH by lia.
    by replace (from + 1 + Z.of_nat i) with (from + Z.of_nat (S i)) by lia.
Qed.

(** Inside the blob, [slice] returns the bytes from [a] up to [b] or the
    end, whichever comes first. *)
Lemma Blob_slice_inside (b : blob) (lo hi : Z) :
  0 <= lo <= hi ->
  lo <= Z.of_nat (length b) ->
  Blob_slice b lo hi
  = take (Z.to_nat (Z.min (Z.of_nat (length b)) hi - lo)) (drop (Z.to_nat lo) b).
Proof.
  intros Hlo Hlen. unfold Blob_slice.
  destruct (Z.ltb_spec lo 0) as [?|_]; [lia|].
  destruct (Z.ltb_spec hi 0) as [?|_]; [lia|].
  replace (Z.min lo (Z.of_nat (length b))) with lo by lia.
  f_equal. lia.
Qed.

Section Chunker.
Context {U : Util}.

Lemma set_reads_same (c : conn) : set_reads (reads c ++ []) c = c.
Proof. destruct c. unfold set_reads. simpl. by rewrite app_nil_r. Qed.

Lemma send_binary_unfold (id : string) (payload : jsval) (c : conn) :
  open c = true ->
  is_undefined_or_null payload = false ->
  serialization c = binary \/ serialization c = binary_utf8 ->
  send id payload c =
    match numSlices_of id payload with
    | Fin n =>
        (set_reads (reads c ++ map packChunk (chunks id payload n)) c, Normal)
    | PosInf => (c, Diverges)
    | NegInf | NaN => (c, Normal)
    end.
Proof.
  intros Ho Hv Hs. unfold send. rewrite Ho, Hv. cbn [negb].
  by destruct Hs as [-> | ->].
Qed.

(** With a chunk size of zero and a payload that is not empty the loop
    bound is infinite: [send] does not return. *)
Lemma send_zero_chunkSize_diverges (id : string) (payload : jsval) (c : conn) :
  open c = true ->
  is_undefined_or_null payload = false ->
  serialization c = binary \/ serialization c = binary_utf8 ->
  chunkSize_of id payload = 0 ->
  pack payload <> [] ->
  send id payload c = (c, Diverges).
Proof.
  intros Ho Hv Hs Hz Hne. rewrite send_binary_unfold by done.
  unfold numSlices_of, Math_ceil_div. rewrite Hz. cbn [header dm_size].
  destruct (pack payload) as [|b rest]; [done|]. cbn [length].
  destruct (Z.eqb_spec (Z.of_nat (S (length rest))) 0) as [?|_]; [lia|].
  destruct (Z.ltb_spec 0 (Z.of_nat (S (length rest)))) as [_|?]; [done|lia].
Qed.

End Chunker.

(** C3: in a binary mode, for a payload whose packed form has [S] bytes,
    a metadata footprint [M] and the bound [maxChunkSize], with capacity
    [C = maxChunkSize - M] positive, [send] hands over
    [totalParts = ceil(S / C)] envelopes.  The envelope at position [i]
    has index [i], carries [totalParts] and the bytes from [i * C] up to
    [min(S, (i + 1) * C)] of the packed payload, and the last one carries
    [S - C * (totalParts - 1)] bytes. *)
Theorem send_binary_slices `{U : Util} (id : string) (payload : jsval) (c : conn) :
  open c = true ->
  is_undefined_or_null payload = false ->
  serialization c = binary \/ serialization c = binary_utf8 ->
  let S := Z.of_nat (length (pack payload)) in
  let M := sizeof (header id payload) in
  let C := maxChunkSize - M in
  let totalParts := (S + C - 1) / C in
  0 < C ->
  exists chs : list chunk,
    send id payload c = (set_reads (reads c ++ map packChunk chs) c, Normal) /\
    Z.of_nat (length chs) = totalParts /\
    (forall i : nat, Z.of_nat i < totalParts ->
       exists ch : chunk,
         chs !! i = Some ch /\
         index ch = Z.of_nat i /\
         dm_totalParts (meta ch) = Fin totalParts /\
         dm_id (meta ch) = id /\
         dm_size (meta ch) = S /\
         data ch
         = take (Z.to_nat (Z.min S ((Z.of_nat i + 1) * C) - Z.of_nat i * C))
             (drop (Z.to_nat (Z.of_nat i * C)) (pack payload))) /\
    (0 < S ->
       exists ch : chunk,
         last chs = Some ch /\
         Z.of_nat (length (data ch)) = S - C * (totalParts - 1)).
Proof.
  intros Ho Hv Hs S M C totalParts HC.
  assert (HS : 0 <= S) by (subst S; lia).
  destruct (ceil_div_bounds S C HC HS) as (Hn0 & Hup & Hlow & Hpos).
  fold totalParts in Hn0, Hup, Hlow, Hpos.
  assert (Hnum : numSlices_of id payload = Fin totalParts).
  { unfold numSlices_of, Math_ceil_div, chunkSize_of. cbn [header dm_size].
    fold M C S. destruct (Z.eqb_spec C 0) as [?|_]; [lia|].
    by rewrite ceil_div_pos. }
  exists (chunks id payload totalParts).
  assert (Hlen : length (chunks id payload totalParts) = Z.to_nat totalParts)
    by apply slice_loop_length.
  assert (Hget : forall i : nat, Z.of_nat i < totalParts ->
    chunks id payload totalParts !! i
    = Some {| meta := with_totalParts (Fin totalParts) (header id payload);
              index := Z.of_nat i;
              data := take (Z.to_nat (Z.min S ((Z.of_nat i + 1) * C)
                                      - Z.of_nat i * C))
                        (drop (Z.to_nat (Z.of_nat i * C)) (pack payload)) |}).
  { intros i Hi. unfold chunks. rewrite slice_loop_lookup by lia.
    unfold chunkSize_of. fold M C. rewrite !Z.add_0_l.
    assert (HS0 : 0 < S) by (apply Hpos; lia). specialize (Hlow HS0).
    rewrite Blob_slice_inside; [done| |]; fold S; nia. }
  split; [|split; [|split]].
  - rewrite send_binary_unfold by done. by rewrite Hnum.
  - rewrite Hlen. lia.
  - intros i Hi. eexists. split; [apply Hget, Hi|]. by cbn.
  - intros HS0. specialize (Hlow HS0).
    assert (Hn1 : 0 < totalParts) by nia.
    eexists. split.
    + rewrite last_lookup, Hlen.
      replace (Nat.pred (Z.to_nat totalParts)) with (Z.to_nat (totalParts - 1)) by lia.
      apply Hget. lia.
    + cbn [data]. rewrite length_take, length_drop. fold S.
      rewrite !Z2Nat.id by lia. nia.
Qed.

Lemma send_binary_slices_witness :
  exists chs : list chunk,
    send (U := scenario) "t" payload_2200 (opened binary)
    = (set_reads (reads (opened binary) ++ map (packChunk (Util := scenario)) chs)
         (opened binary), Normal) /\
    Z.of_nat (length chs) = 3 /\
    (exists ch : chunk,
       last chs = Some ch /\ Z.of_nat (length (data ch)) = 300).
Proof.
  destruct (send_binary_slices (U := scenario) "t" payload_2200 (opened binary))
    as (chs & Hsend & Hlen & _ & Hlast).
  - reflexivity.
  - reflexivity.
  - left. reflexivity.
  - vm_compute. reflexivity.
  - exists chs. split; [exact Hsend|]. split; [exact Hlen|].
    apply Hlast. vm_compute. reflexivity.
Defined.

Example scenario_chunk_sizes :
  numSlices_of (U := scenario) "t" payload_2200 = Fin 3 /\
  map (fun ch => (index ch, length (data ch)))
    (chunks (U := scenario) "t" payload_2200 3)
  = [(0, 950%nat); (1, 950%nat); (2, 300%nat)].
Proof. split; vm_compute; reflexivity. Qed.

(** * No check of the chunk size *)

(** C4 (counterexample): three bytes are sent in mode 'binary' when the
    chunk size is 40 - 50 = -10.  [send] returns normally, emits nothing
    and hands over no envelope. *)
Lemma negative_chunkSize_counterexample :
  let payload := JBuffer [Byte.x01; Byte.x02; Byte.x03] in
  chunkSize_of (U := narrow) "t" payload = -10 /\
  send (U := narrow) "t" payload (opened binary) = (opened binary, Normal) /\
  emitted (send (U := narrow) "t" payload (opened binary)).1 = [] /\
  reads (send (U := narrow) "t" payload (opened binary)).1 = [].
Proof. repeat split; reflexivity. Qed.

(** C4 (as amended): in a binary mode, when the chunk size
    ([maxChunkSize] minus the footprint of the metadata) is negative,
    [send] returns normally without any effect: no envelope is produced,
    nothing is queued and no error is raised. *)
Theorem send_negative_chunkSize_is_noop `{U : Util}
    (id : string) (payload : jsval) (c : conn) :
  open c = true ->
  is_undefined_or_null payload = false ->
  serialization c = binary \/ serialization c = binary_utf8 ->
  maxChunkSize - sizeof (header id payload) < 0 ->
  send id payload c = (c, Normal).
Proof.
  intros Ho Hv Hs Hneg. rewrite send_binary_unfold by done.
  unfold numSlices_of, Math_ceil_div, chunkSize_of.
  set (C := maxChunkSize - sizeof (header id payload)) in *.
  destruct (Z.eqb_spec C 0) as [?|_]; [lia|].
  unfold chunks.
  set (S := dm_size (header id payload)).
  assert (HS : 0 <= S) by (subst S; cbn; lia).
  assert (Hq : 0 <= (- S) / C).
  { rewrite <- (Z.opp_involutive C), Z.div_opp_opp by lia.
    apply Z.div_pos; lia. }
  replace (Z.to_nat (- ((- S) / C))) with 0%nat by lia.
  cbn [slice_loop map]. by rewrite set_reads_same.
Qed.

Lemma send_negative_chunkSize_is_noop_witness :
  send (U := narrow) "t" (JBuffer [Byte.x01; Byte.x02; Byte.x03]) (opened binary)
  = (opened binary, Normal).
Proof.
  apply (send_negative_chunkSize_is_noop (U := narrow) "t"
           (JBuffer [Byte.x01; Byte.x02; Byte.x03]) (opened binary)).
  - reflexivity.
  - reflexivity.
  - left. reflexivity.
  - vm_compute. reflexivity.
Defined.

(** * Reassembly *)

Lemma fill_lookup (slices : list blob) (order : list nat)
    (l : list (option blob)) (j : nat) :
  (j < length l)%nat ->
  fill slices l order !! j
  = if decide (j ∈ order) then Some (Some (slices !!! j)) else l !! j.
Proof.
  revert l. induction order as [|i order IH]; intros l Hj.
  - cbn [fill foldl]. rewrite decide_False; [done|]. apply not_elem_of_nil.
  - cbn [fill foldl]. fold (fill slices (<[i := Some (slices !!! i)]> l) order).
    rewrite IH by (by rewrite length_insert).
    destruct (decide (j ∈ order)) as [Hin|Hnin].
    + rewrite decide_True; [done|]. by apply elem_of_cons; right.
    + destruct (decide (j = i)) as [->|Hne].
      * rewrite decide_True by (apply elem_of_cons; by left).
        by rewrite list_lookup_insert_eq.
      * rewrite decide_False.
        -- by rewrite list_lookup_insert_ne.
        -- intros Hin. apply elem_of_cons in Hin. by destruct Hin.
Qed.

Lemma fill_length (slices : list blob) (order : list nat) (l : list (option blob)) :
  length (fill slices l order) = length l.
Proof.
  revert l. induction order as [|i order IH]; intros l; [done|].
  cbn [fill foldl]. fold (fill slices (<[i := Some (slices !!! i)]> l) order).
  by rewrite IH, length_insert.
Qed.

Lemma fill_snoc (slices : list blob) (order : list nat) (l : list (option blob))
    (j : nat) :
  fill slices l (order ++ [j]) = <[j := Some (slices !!! j)]> (fill slices l order).
Proof. unfold fill. by rewrite foldl_app. Qed.

(** Once every index was stored the slots hold the slices, in order. *)
Lemma fill_all (slices : list blob) (order : list nat) :
  order ≡ₚ seq 0 (length slices) ->
  fill slices (replicate (length slices) None) order = Some <$> slices.
Proof.
  intros Hperm. apply list_eq. intros j.
  destruct (decide (j < length slices)%nat) as [Hj|Hj].
  - rewrite fill_lookup by (by rewrite length_replicate).
    rewrite decide_True.
    + rewrite list_lookup_fmap, (list_lookup_lookup_total_lt slices j Hj). done.
    + rewrite Hperm. apply elem_of_seq. lia.
  - rewrite !lookup_ge_None_2; [done| |].
    + rewrite length_fmap. lia.
    + rewrite fill_length, length_replicate. lia.
Qed.

Lemma join_slices (slices : list blob) :
  joinArrayBuffers {| elems := Some <$> slices; props := [] |} = concat slices.
Proof.
  unfold joinArrayBuffers. cbn [elems]. f_equal.
  induction slices as [|s slices IH]; [done|]. cbn. by rewrite IH.
Qed.

Lemma array_set_inside (l : list (option blob)) (p : list (Z * blob))
    (i : nat) (v : blob) :
  (i < length l)%nat ->
  Z.of_nat (length l) < 2 ^ 32 ->
  array_set {| elems := l; props := p |} (Z.of_nat i) v
  = {| elems := <[i := Some v]> l; props := p |}.
Proof.
  intros Hi Hl. unfold array_set. cbn [elems props].
  rewrite decide_True by lia. rewrite Nat2Z.id. by rewrite decide_True.
Qed.

Lemma set_receivedData_same (c : conn) : set_receivedData (_receivedData c) c = c.
Proof. by destruct c. Qed.

Lemma deliver_app `{U : Util} (chs chs' : list chunk) (c : conn) :
  deliver (chs ++ chs') c
  = match deliver chs c with
    | (c', Normal) => deliver chs' c'
    | stopped => stopped
    end.
Proof.
  revert c. induction chs as [|ch chs IH]; intros c; [done|].
  cbn [app deliver]. destruct (reassemble ch c) as [c' []]; [apply IH|done..].
Qed.

(** In the binary modes the handler is the reassembly of the unpacked
    message. *)
Lemma _handleDataMessage_binary `{U : Util} (msg_data : jsval) (c : conn) :
  serialization c = binary \/ serialization c = binary_utf8 ->
  _handleDataMessage msg_data c = reassemble (unpackChunk msg_data) c.
Proof. intros [Hs|Hs]; unfold _handleDataMessage; by rewrite Hs. Qed.

Section OneTransfer.
Context {U : Util}.
Variables (m : dataMeta) (slices : list blob) (c : conn).
Let n := length slices.
Hypothesis Htotal : dm_totalParts m = Fin (Z.of_nat n).
Hypothesis Hbound : Z.of_nat n < 2 ^ 32.
Hypothesis Hfresh : _receivedData c !! dm_id m = None.
Hypothesis Hown : inherited (dm_id m) = false.

Lemma store_entry (l : list (option blob)) (r : Z) (i : nat) :
  length l = n -> (i < n)%nat ->
  store (envelope m slices i) (entry m l r)
  = entry m (<[i := Some (slices !!! i)]> l) (r + 1).
Proof.
  intros Hl Hi. unfold store, entry.
  cbn [envelope index data t_size t_type t_name t_mimeType t_totalParts
       t_parts t_receivedParts].
  rewrite array_set_inside.
  - reflexivity.
  - rewrite Hl. exact Hi.
  - rewrite Hl. exact Hbound.
Qed.

Lemma is_complete_entry (l : list (option blob)) (r : Z) :
  is_complete (entry m l r) = (r =? Z.of_nat n).
Proof. unfold is_complete. cbn. by rewrite Htotal. Qed.

Lemma new_transfer_entry : new_transfer m = Some (entry m (replicate n None) 0).
Proof.
  unfold new_transfer, new_Array. rewrite Htotal.
  destruct (decide (0 <= Z.of_nat n < 2 ^ 32)) as [_|Hn]; [|lia].
  cbn. rewrite Nat2Z.id. unfold entry. by rewrite Htotal.
Qed.

Lemma currData_of_fresh (i : nat) :
  currData_of (envelope m slices i) c = Entry (entry m (replicate n None) 0).
Proof.
  unfold currData_of. cbn [envelope meta].
  by rewrite Hfresh, Hown, new_transfer_entry.
Qed.

Lemma currData_of_entry (l : list (option blob)) (r : Z) (i : nat) :
  currData_of (envelope m slices i) (at_entry m c l r) = Entry (entry m l r).
Proof.
  unfold currData_of, at_entry. cbn [envelope meta _receivedData set_receivedData].
  by rewrite lookup_insert_eq.
Qed.

(** The first envelope of an unseen id. *)
Lemma reassemble_fresh (i : nat) :
  (i < n)%nat ->
  reassemble (envelope m slices i) c
  = if decide (n = 1%nat)
    then emit (EvData (unpack (joinArrayBuffers
                 {| elems := fill slices (replicate n None) [i];
                    props := [] |}))) c
    else (at_entry m c (fill slices (replicate n None) [i]) 1, Normal).
Proof.
  intros Hi. unfold reassemble. rewrite currData_of_fresh.
  cbn [envelope meta].
  rewrite (store_entry _ _ i) by (by rewrite ?length_replicate).
  rewrite is_complete_entry. cbn [entry t_parts fill foldl].
  case_decide as Hn.
  - rewrite Hn. cbn [Z.eqb Z.add Z.of_nat Pos.of_succ_nat Pos.eqb].
    by rewrite (delete_id _ _ Hfresh), set_receivedData_same.
  - destruct (Z.eqb_spec (0 + 1) (Z.of_nat n)) as [?|_]; [lia|]. done.
Qed.

(** A further envelope that does not bring the count to [totalParts]. *)
Lemma reassemble_live (l : list (option blob)) (r : Z) (i : nat) :
  length l = n -> (i < n)%nat -> r + 1 <> Z.of_nat n ->
  reassemble (envelope m slices i) (at_entry m c l r)
  = (at_entry m c (<[i := Some (slices !!! i)]> l) (r + 1), Normal).
Proof.
  intros Hl Hi Hr. unfold reassemble. rewrite currData_of_entry.
  cbn [envelope meta].
  rewrite (store_entry _ _ i) by done.
  rewrite is_complete_entry.
  destruct (Z.eqb_spec (r + 1) (Z.of_nat n)) as [?|_]; [lia|].
  unfold at_entry, set_receivedData. cbn. by rewrite insert_insert_eq.
Qed.

(** The envelope that brings the count to [totalParts]. *)
Lemma reassemble_last (l : list (option blob)) (r : Z) (i : nat) :
  length l = n -> (i < n)%nat -> r + 1 = Z.of_nat n ->
  reassemble (envelope m slices i) (at_entry m c l r)
  = emit (EvData (unpack (joinArrayBuffers
            {| elems := <[i := Some (slices !!! i)]> l; props := [] |}))) c.
Proof.
  intros Hl Hi Hr. unfold reassemble. rewrite currData_of_entry.
  cbn [envelope meta].
  rewrite (store_entry _ _ i) by done.
  rewrite is_complete_entry, Hr, Z.eqb_refl. cbn [entry t_parts].
  unfold at_entry, set_receivedData, emit, add_events.
  cbn [_receivedData serialization open _sendBuffer _queuedMessages
       sendInterval reads emitted channel error_listener].
  rewrite delete_insert_eq, (delete_id _ _ Hfresh). by destruct c.
Qed.

(** Envelopes delivered to a live entry, the count staying below
    [totalParts]: each is stored and counted, none emits. *)
Lemma deliver_live (order : list nat) (l : list (option blob)) (r : Z) :
  length l = n ->
  Forall (fun i => (i < n)%nat) order ->
  0 <= r -> r + Z.of_nat (length order) < Z.of_nat n ->
  deliver (map (envelope m slices) order) (at_entry m c l r)
  = (at_entry m c (fill slices l order) (r + Z.of_nat (length order)), Normal).
Proof.
  revert l r. induction order as [|i order IH]; intros l r Hl Hall Hr Hsum.
  - cbn. by rewrite Z.add_0_r.
  - inversion Hall as [|? ? Hi Hall']; subst.
    cbn [map deliver length] in *.
    rewrite reassemble_live by (try done; lia).
    rewrite IH; [|by rewrite length_insert|done|lia|lia].
    cbn [fill foldl]. do 2 f_equal. lia.
Qed.

(** The same from an unseen id. *)
Lemma deliver_partial (order : list nat) :
  order <> [] ->
  Forall (fun i => (i < n)%nat) order ->
  (length order < n)%nat ->
  deliver (map (envelope m slices) order) c
  = (at_entry m c (fill slices (replicate n None) order) (Z.of_nat (length order)),
     Normal).
Proof.
  intros Hne Hall Hlen. destruct order as [|i order]; [done|].
  inversion Hall as [|? ? Hi Hall']; subst.
  cbn [map deliver length] in *.
  rewrite reassemble_fresh by done. rewrite decide_False by lia.
  rewrite deliver_live; [|by rewrite fill_length, length_replicate|done|lia|lia].
  cbn [fill foldl]. do 2 f_equal. lia.
Qed.

(** All the envelopes, in any order. *)
Lemma deliver_all (order : list nat) :
  (0 < n)%nat ->
  order ≡ₚ seq 0 n ->
  deliver (map (envelope m slices) order) c
  = emit (EvData (unpack (concat slices))) c.
Proof.
  intros Hn Hperm.
  assert (Hall : Forall (fun i => (i < n)%nat) order).
  { apply Forall_forall. intros i Hi. rewrite Hperm in Hi.
    apply elem_of_seq in Hi. lia. }
  assert (Hlen : length order = n) by (by rewrite Hperm, length_seq).
  rewrite <- (join_slices slices), <- (fill_all slices order Hperm).
  fold n.
  destruct (decide (order = [])) as [->|Hne]; [cbn in Hlen; lia|].
  destruct (exists_last Hne) as (init & j & ->).
  rewrite length_app in Hlen. cbn in Hlen.
  apply Forall_app in Hall as [Hinit Hj].
  rewrite Forall_singleton in Hj.
  destruct init as [|i init].
  - cbn [app map deliver length] in *. rewrite reassemble_fresh by done.
    rewrite decide_True by lia. done.
  - rewrite map_app, deliver_app.
    rewrite deliver_partial by (try done; lia).
    cbn [map deliver].
    rewrite reassemble_last;
      [|by rewrite fill_length, length_replicate|done|lia].
    by rewrite fill_snoc.
Qed.

End OneTransfer.

(** An envelope whose id names an inherited member and has no entry:
    the handler throws and the connection is as it was. *)
Lemma reassemble_member `{U : Util} (ch : chunk) (c : conn) :
  _receivedData c !! dm_id (meta ch) = None ->
  inherited (dm_id (meta ch)) = true ->
  reassemble ch c = (c, Thrown "TypeError").
Proof.
  intros Hfresh Hin. unfold reassemble, currData_of. by rewrite Hfresh, Hin.
Qed.

(** C5 (evaluation at a failing input): the two envelopes of a transfer
    whose id is "constructor" arrive, in either order.  The table, a
    plain object, answers the lookup of that id with the member it
    inherits, so no entry is created and each envelope makes the handler
    throw: no data event is emitted and nothing is ever stored. *)
Theorem inherited_id_never_reassembles :
  let e0 := envelope constructor_parts [[Byte.x01; Byte.x02]; [Byte.x03]] 0 in
  let e1 := envelope constructor_parts [[Byte.x01; Byte.x02]; [Byte.x03]] 1 in
  inherited (Util := scenario) "constructor" = true /\
  reassemble (U := scenario) e0 (opened binary)
  = (opened binary, Thrown "TypeError") /\
  reassemble (U := scenario) e1 (opened binary)
  = (opened binary, Thrown "TypeError") /\
  ingest_all (U := scenario) [e0; e1] (opened binary) = opened binary /\
  ingest_all (U := scenario) [e1; e0] (opened binary) = opened binary /\
  emitted (ingest_all (U := scenario) [e1; e0] (opened binary)) = [].
Proof. repeat split; vm_compute; reflexivity. Qed.

(** X21: the envelopes of one transfer (one per index of
    [0 .. totalParts - 1], carrying the slices of the payload) whose id
    names no inherited member, delivered in any order to a connection
    that holds no entry for their id, make the handler emit exactly one
    data event, for the concatenation of the slices in index order, and
    leave no entry behind. *)
Theorem reassembly_order_independent `{U : Util}
    (m : dataMeta) (slices : list blob) (order : list nat) (c : conn) :
  slices <> [] ->
  dm_totalParts m = Fin (Z.of_nat (length slices)) ->
  Z.of_nat (length slices) < 2 ^ 32 ->
  _receivedData c !! dm_id m = None ->
  inherited (dm_id m) = false ->
  order ≡ₚ seq 0 (length slices) ->
  deliver (map (envelope m slices) order) c
  = emit (EvData (unpack (concat slices))) c.
Proof.
  intros Hne Htotal Hbound Hfresh Hown Hperm.
  apply deliver_all; try done.
  destruct slices; [done|]. cbn. lia.
Qed.

Lemma reassembly_order_independent_witness :
  deliver (U := scenario)
    (map (envelope two_parts [[Byte.x01; Byte.x02]; [Byte.x03]]) [1%nat; 0%nat])
    (opened binary)
  = emit (EvData (JBuffer [Byte.x01; Byte.x02; Byte.x03])) (opened binary).
Proof.
  apply (reassembly_order_independent (U := scenario) two_parts
           [[Byte.x01; Byte.x02]; [Byte.x03]] [1%nat; 0%nat] (opened binary)).
  - discriminate.
  - reflexivity.
  - vm_compute. reflexivity.
  - reflexivity.
  - reflexivity.
  - apply perm_swap.
Defined.

(** The scenario of the specification, continued: the three envelopes of
    the 2200 bytes fed in reverse order give one data event with the
    payload. *)
Example scenario_reverse_delivery :
  deliver (U := scenario)
    (reverse (chunks (U := scenario) "t" payload_2200 3)) (opened binary)
  = emit (EvData payload_2200) (opened binary).
Proof. vm_compute. reflexivity. Qed.

(** The same end to end: the sender slices the 2200 bytes, the three
    reads finish, three ticks hand the packed envelopes to the channel,
    and the receiver, given them in reverse order, emits the payload
    once. *)
Example scenario_end_to_end :
  let sender :=
    run_ticks [true; true; true]
      (blobToArrayBuffer_done (blobToArrayBuffer_done (blobToArrayBuffer_done
         (send (U := scenario) "t" payload_2200 (opened binary)).1))) in
  let receiver :=
    handle_all (U := scenario) (reverse (channel sender)) (opened binary) in
  length (channel sender) = 3%nat /\
  _sendBuffer sender = [] /\ sendInterval sender = false /\
  emitted receiver = [EvData payload_2200] /\
  _receivedData receiver = ∅.
Proof. repeat split; vm_compute; reflexivity. Qed.

(** * Duplicates and indices out of range *)

(** C2 (counterexample): the envelope of index 0 of a three-part transfer
    arrives three times.  The count is 1, then 2, with one slot filled,
    and the third arrival completes the transfer, whose entry is removed
    from the table, although indices 1 and 2 never arrived. *)
Lemma duplicate_index_counterexample :
  let e0 := {| meta := three_parts; index := 0; data := [Byte.x01] |} in
  let c1 := (reassemble (U := scenario) e0 (opened binary)).1 in
  let c2 := (reassemble (U := scenario) e0 c1).1 in
  let c3 := (reassemble (U := scenario) e0 c2).1 in
  t_receivedParts <$> _receivedData c1 !! "t" = Some 1 /\
  t_receivedParts <$> _receivedData c2 !! "t" = Some 2 /\
  (elems ∘ t_parts) <$> _receivedData c2 !! "t"
  = Some [Some [Byte.x01]; None; None] /\
  emitted c2 = [] /\
  _receivedData c3 !! "t" = None.
Proof. repeat split; vm_compute; reflexivity. Qed.

(** C2 (as amended): envelopes of one transfer with pairwise distinct
    indices below [totalParts], fewer than [totalParts] of them, whose id
    names no inherited member, delivered to a connection that holds no
    entry for their id: no event is emitted, the entry stays in the
    table, its count is the number of distinct indices received and
    exactly the slots of those indices are filled. *)
Theorem distinct_indices_counted_once `{U : Util}
    (m : dataMeta) (slices : list blob) (order : list nat) (c : conn) :
  dm_totalParts m = Fin (Z.of_nat (length slices)) ->
  Z.of_nat (length slices) < 2 ^ 32 ->
  _receivedData c !! dm_id m = None ->
  inherited (dm_id m) = false ->
  NoDup order ->
  Forall (fun i => (i < length slices)%nat) order ->
  order <> [] ->
  (length order < length slices)%nat ->
  exists (c' : conn) (t : transfer),
    deliver (map (envelope m slices) order) c = (c', Normal) /\
    emitted c' = emitted c /\
    _receivedData c' !! dm_id m = Some t /\
    t_receivedParts t = Z.of_nat (size (list_to_set order : gset nat)) /\
    forall i : nat, (i < length slices)%nat ->
      elems (t_parts t) !! i
      = Some (if decide (i ∈ order) then Some (slices !!! i) else None).
Proof.
  intros Htotal Hbound Hfresh Hown Hnodup Hall Hne Hlen.
  eexists _, _. split; [by apply deliver_partial|].
  split; [done|]. split; [apply lookup_insert_eq|].
  split.
  - cbn. by rewrite size_list_to_set.
  - intros i Hi. cbn [entry t_parts elems].
    rewrite fill_lookup by (by rewrite length_replicate).
    case_decide; [done|]. by rewrite lookup_replicate_2.
Qed.

Lemma distinct_indices_counted_once_witness :
  exists (c' : conn) (t : transfer),
    deliver (U := scenario)
      (map (envelope three_parts [[Byte.x01]; [Byte.x02]; [Byte.x03]])
         [2%nat; 0%nat]) (opened binary) = (c', Normal) /\
    emitted c' = [] /\
    _receivedData c' !! "t" = Some t /\
    t_receivedParts t = Z.of_nat (size (list_to_set [2%nat; 0%nat] : gset nat)) /\
    forall i : nat, (i < 3)%nat ->
      elems (t_parts t) !! i
      = Some (if decide (i ∈ [2%nat; 0%nat])
              then Some ([[Byte.x01]; [Byte.x02]; [Byte.x03]] !!! i) else None).
Proof.
  apply (distinct_indices_counted_once (U := scenario) three_parts
           [[Byte.x01]; [Byte.x02]; [Byte.x03]] [2%nat; 0%nat] (opened binary)).
  - reflexivity.
  - vm_compute. reflexivity.
  - reflexivity.
  - reflexivity.
  - apply NoDup_cons. split; [|apply NoDup_singleton].
    intros Hin. apply list_elem_of_singleton in Hin. discriminate.
  - repeat constructor.
  - discriminate.
  - simpl. lia.
Defined.

(** C6 (counterexample): the first envelope of a two-part transfer has
    index 2, and another one has index -1.  Neither is rejected: the
    handler returns normally, no event is emitted, the entry stays in the
    table with a count of 1, and the data is written, past the end of the
    parts in the first case and as a property in the second. *)
Lemma index_out_of_range_counterexample :
  let high := {| meta := two_parts; index := 2; data := [Byte.x01] |} in
  let low := {| meta := two_parts; index := -1; data := [Byte.x01] |} in
  let r2 := reassemble (U := scenario) high (opened binary) in
  let r1 := reassemble (U := scenario) low (opened binary) in
  r2.2 = Normal /\ emitted r2.1 = [] /\
  _receivedData r2.1 !! "t"
  = Some {| t_size := 3; t_type := "ArrayBuffer"; t_name := None;
            t_mimeType := None; t_totalParts := Fin 2;
            t_parts := {| elems := [None; None; Some [Byte.x01]]; props := [] |};
            t_receivedParts := 1 |} /\
  r1.2 = Normal /\ emitted r1.1 = [] /\
  _receivedData r1.1 !! "t"
  = Some {| t_size := 3; t_type := "ArrayBuffer"; t_name := None;
            t_mimeType := None; t_totalParts := Fin 2;
            t_parts := {| elems := [None; None]; props := [(-1, [Byte.x01])] |};
            t_receivedParts := 1 |}.
Proof. repeat split; vm_compute; reflexivity. Qed.

Lemma array_set_lookup (a : jsarray) (i : Z) (v : blob) :
  0 <= i < 2 ^ 32 - 1 ->
  elems (array_set a i v) !! Z.to_nat i = Some (Some v) /\
  ((length (elems a) <= Z.to_nat i)%nat ->
   length (elems (array_set a i v)) = S (Z.to_nat i)) /\
  props (array_set a i v) = props a.
Proof.
  intros Hi. unfold array_set. rewrite decide_True by done.
  case_decide as Hk; cbn [elems props].
  - split; [by apply list_lookup_insert_eq|]. split; [lia|done].
  - split; [|split; [|done]].
    + rewrite lookup_app_r by lia.
      rewrite lookup_app_r by (rewrite length_replicate; lia).
      rewrite length_replicate.
      by replace (Z.to_nat i - length (elems a)
                  - (Z.to_nat i - length (elems a)))%nat with 0%nat by lia.
    + intros _. rewrite !length_app, length_replicate. cbn. lia.
Qed.

(** C6 (as amended): an envelope whose index is negative or not below
    [totalParts] is handled like any other.  When its transfer has an
    entry in the table or gets one (its id then names no inherited
    member), and unless it brings the count to [totalParts], the handler
    returns normally and emits nothing, the entry stays in the table
    with its count raised by one, and the data is stored: at that index,
    the parts growing when needed, or as a property when the index is no
    array index. *)
Theorem index_out_of_range_is_stored `{U : Util}
    (ch : chunk) (c : conn) (t : transfer) (n : Z) :
  currData_of ch c = Entry t ->
  t_totalParts t = Fin n ->
  index ch < 0 \/ n <= index ch ->
  t_receivedParts t + 1 <> n ->
  exists (c' : conn) (t' : transfer),
    reassemble ch c = (c', Normal) /\
    emitted c' = emitted c /\
    _receivedData c' !! dm_id (meta ch) = Some t' /\
    t_receivedParts t' = t_receivedParts t + 1 /\
    t_totalParts t' = Fin n /\
    (0 <= index ch < 2 ^ 32 - 1 ->
       elems (t_parts t') !! Z.to_nat (index ch) = Some (Some (data ch)) /\
       ((length (elems (t_parts t)) <= Z.to_nat (index ch))%nat ->
        length (elems (t_parts t')) = S (Z.to_nat (index ch)))) /\
    (index ch < 0 \/ 2 ^ 32 - 1 <= index ch ->
       props (t_parts t') = (index ch, data ch) :: props (t_parts t) /\
       elems (t_parts t') = elems (t_parts t)).
Proof.
  intros Hcur Htotal Hrange Hcount.
  exists (set_receivedData (<[dm_id (meta ch) := store ch t]> (_receivedData c)) c),
         (store ch t).
  split.
  { unfold reassemble. rewrite Hcur.
    unfold is_complete. cbn [store t_totalParts t_receivedParts].
    rewrite Htotal.
    destruct (Z.eqb_spec (t_receivedParts t + 1) n) as [?|_]; [lia|done]. }
  split; [done|]. split; [apply lookup_insert_eq|].
  split; [done|]. split; [done|]. cbn [store t_parts].
  split.
  - intros Hi. destruct (array_set_lookup (t_parts t) (index ch) (data ch) Hi)
      as (Hl & Hg & _). by split.
  - intros Hi. unfold array_set. rewrite decide_False by lia. by cbn.
Qed.

Lemma index_out_of_range_is_stored_witness :
  exists (c' : conn) (t' : transfer),
    reassemble (U := scenario)
      {| meta := two_parts; index := 2; data := [Byte.x01] |} (opened binary)
    = (c', Normal) /\
    emitted c' = [] /\
    _receivedData c' !! "t" = Some t' /\
    t_receivedParts t' = 1 /\
    t_totalParts t' = Fin 2 /\
    (0 <= 2 < 2 ^ 32 - 1 ->
       elems (t_parts t') !! 2%nat = Some (Some [Byte.x01]) /\
       ((2 <= 2)%nat -> length (elems (t_parts t')) = 3%nat)) /\
    (2 < 0 \/ 2 ^ 32 - 1 <= 2 ->
       props (t_parts t') = [(2, [Byte.x01])] /\
       elems (t_parts t') = [None; None]).
Proof.
  apply (index_out_of_range_is_stored (U := scenario)
           {| meta := two_parts; index := 2; data := [Byte.x01] |}
           (opened binary)
           (entry two_parts [None; None] 0) 2).
  - reflexivity.
  - reflexivity.
  - right. simpl. lia.
  - simpl. lia.
Defined.

(** * More on the send loop *)

Lemma loop_ok_same (c c' : conn) :
  sendInterval c' = sendInterval c -> _sendBuffer c' = _sendBuffer c ->
  loop_ok c -> loop_ok c'.
Proof. unfold loop_ok. by intros -> ->. Qed.

Lemma loop_ok_push (m : jsval) (c : conn) :
  loop_ok c -> loop_ok (_startSendLoop (push m c)).
Proof.
  unfold loop_ok, _startSendLoop, push. cbn. intros _.
  destruct (sendInterval c) eqn:Harmed; cbn; rewrite ?Harmed;
    by destruct (_sendBuffer c).
Qed.

Lemma loop_ok_interval_fires (ok : bool) (c : conn) :
  loop_ok c -> loop_ok (interval_fires ok c).
Proof.
  intros Hc. unfold interval_fires.
  destruct (sendInterval c) eqn:Harmed; [|exact Hc].
  unfold loop_ok in *. rewrite Harmed in Hc.
  destruct (_sendBuffer c) as [|m q] eqn:Hq; [done|].
  destruct ok.
  - destruct (tick_ok c m q Hq) as (-> & _ & ->).
    destruct q; [done|exact Harmed].
  - destruct (tick_failed c m q Hq) as (-> & _ & ->).
    rewrite Harmed. by destruct q.
Qed.

Lemma reassemble_frame `{U : Util} (ch : chunk) (c : conn) :
  let c' := (reassemble ch c).1 in
  serialization c' = serialization c /\ open c' = open c /\
  _sendBuffer c' = _sendBuffer c /\ sendInterval c' = sendInterval c /\
  reads c' = reads c /\ channel c' = channel c /\
  _queuedMessages c' = _queuedMessages c.
Proof.
  unfold reassemble. destruct (currData_of ch c) as [t| |]; [|by cbn..].
  destruct (is_complete (store ch t)); by cbn.
Qed.

Lemma _handleDataMessage_frame `{U : Util} (msg_data : jsval) (c : conn) :
  let c' := (_handleDataMessage msg_data c).1 in
  serialization c' = serialization c /\ open c' = open c /\
  _sendBuffer c' = _sendBuffer c /\ sendInterval c' = sendInterval c /\
  reads c' = reads c /\ channel c' = channel c /\
  _queuedMessages c' = _queuedMessages c.
Proof.
  unfold _handleDataMessage.
  generalize (reassemble_frame (unpackChunk msg_data) c). cbn zeta.
  destruct (serialization c) eqn:Hs; intros Hr; [exact Hr..| |].
  - destruct (JSON_parse msg_data); cbn; rewrite ?Hs; auto 10.
  - cbn. rewrite ?Hs. auto 10.
Qed.

Lemma loop_ok_send `{U : Util} (id : string) (v : jsval) (c : conn) :
  loop_ok c -> loop_ok (send id v c).1.
Proof.
  intros Hc. unfold send.
  destruct (open c); cbn [negb];
    [|unfold emit; by destruct (error_listener c)].
  destruct (is_undefined_or_null v); [done|].
  destruct (serialization c).
  - destruct (numSlices_of id v); done.
  - destruct (numSlices_of id v); done.
  - destruct (JSON_stringify v); [|done]. by apply loop_ok_push.
  - by apply loop_ok_push.
Qed.

Lemma loop_ok_blobToArrayBuffer_done (c : conn) :
  loop_ok c -> loop_ok (blobToArrayBuffer_done c).
Proof.
  intros Hc. unfold blobToArrayBuffer_done.
  destruct (reads c) as [|ab rest]; [done|].
  apply loop_ok_push. exact Hc.
Qed.

(** X1: the interval is armed exactly while the send buffer holds
    something, and every step of a connection keeps it so: [send], the
    completion of a read, a timer period, the channel opening and an
    inbound message.  So the callback never shifts an empty buffer. *)
Theorem loop_ok_preserved `{U : Util} (c : conn) :
  loop_ok c ->
  (forall id v, loop_ok (send id v c).1) /\
  loop_ok (blobToArrayBuffer_done c) /\
  (forall ok, loop_ok (interval_fires ok c)) /\
  loop_ok (onopen c) /\
  (forall msg_data, loop_ok (_handleDataMessage msg_data c).1).
Proof.
  intros Hc. repeat split.
  - intros id v. by apply loop_ok_send.
  - by apply loop_ok_blobToArrayBuffer_done.
  - intros ok. by apply loop_ok_interval_fires.
  - exact Hc.
  - intros msg_data.
    destruct (_handleDataMessage_frame msg_data c) as (_ & _ & Hb & Hi & _).
    by apply (loop_ok_same c).
Qed.

Lemma loop_ok_preserved_witness :
  (forall id v, loop_ok (send (U := scenario) id v (opened none)).1) /\
  loop_ok (blobToArrayBuffer_done (opened none)) /\
  (forall ok, loop_ok (interval_fires ok (opened none))) /\
  loop_ok (onopen (opened none)) /\
  (forall msg_data,
     loop_ok (_handleDataMessage (U := scenario) msg_data (opened none)).1).
Proof.
  apply (loop_ok_preserved (U := scenario) (opened none)).
  reflexivity.
Defined.

Lemma loop_ok_run_ticks (oks : list bool) (c : conn) :
  loop_ok c -> loop_ok (run_ticks oks c).
Proof.
  revert c. induction oks as [|ok oks IH]; intros c Hc; [done|].
  rewrite run_ticks_cons. by apply IH, loop_ok_interval_fires.
Qed.

Lemma interval_fires_conserves (ok : bool) (c : conn) :
  loop_ok c ->
  channel (interval_fires ok c) ++ _sendBuffer (interval_fires ok c)
    ≡ₚ channel c ++ _sendBuffer c /\
  channel c `prefix_of` channel (interval_fires ok c).
Proof.
  intros Hc. unfold interval_fires.
  destruct (sendInterval c) eqn:Harmed; [|done].
  unfold loop_ok in Hc. rewrite Harmed in Hc.
  destruct (_sendBuffer c) as [|m q] eqn:Hq; [done|].
  destruct ok.
  - destruct (tick_ok c m q Hq) as (-> & -> & _). split.
    + by rewrite <- app_assoc.
    + by apply prefix_app_r.
  - destruct (tick_failed c m q Hq) as (-> & -> & _). split; [|done].
    apply Permutation_app_head. symmetry. apply Permutation_cons_append.
Qed.

(** X2: whatever the outcome of each hand-off, a run of timer periods
    neither loses nor duplicates a message: what the channel accepted
    together with what is still queued is a rearrangement of what there
    was, and what the channel accepted is only ever extended. *)
Theorem run_ticks_conserves (oks : list bool) (c : conn) :
  loop_ok c ->
  channel (run_ticks oks c) ++ _sendBuffer (run_ticks oks c)
    ≡ₚ channel c ++ _sendBuffer c /\
  channel c `prefix_of` channel (run_ticks oks c).
Proof.
  revert c. induction oks as [|ok oks IH]; intros c Hc; [done|].
  rewrite run_ticks_cons.
  destruct (interval_fires_conserves ok c Hc) as [Hperm Hpre].
  destruct (IH (interval_fires ok c) (loop_ok_interval_fires ok c Hc))
    as [IHperm IHpre].
  split; [by rewrite IHperm | by etrans].
Qed.

Lemma run_ticks_conserves_witness :
  channel (run_ticks [false; true; false] queued_ab)
    ++ _sendBuffer (run_ticks [false; true; false] queued_ab)
    ≡ₚ channel queued_ab ++ _sendBuffer queued_ab /\
  channel queued_ab `prefix_of` channel (run_ticks [false; true; false] queued_ab).
Proof.
  apply (run_ticks_conserves [false; true; false] queued_ab).
  reflexivity.
Defined.

Lemma run_ticks_drain (c : conn) :
  loop_ok c ->
  channel (run_ticks (replicate (length (_sendBuffer c)) true) c)
  = channel c ++ _sendBuffer c /\
  _sendBuffer (run_ticks (replicate (length (_sendBuffer c)) true) c) = [] /\
  sendInterval (run_ticks (replicate (length (_sendBuffer c)) true) c) = false.
Proof.
  intros Hc.
  pose proof (loop_ok_run_ticks
                (replicate (length (_sendBuffer c)) true) c Hc) as Hend.
  unfold loop_ok in Hc, Hend.
  destruct (_sendBuffer c) as [|m q] eqn:Hq.
  - cbn. rewrite app_nil_r. cbn in Hend. rewrite Hq in Hend. auto.
  - destruct (run_ticks_all_ok (m :: q) c Hq Hc) as [Hch Hbuf].
    rewrite Hbuf in Hend. auto.
Qed.

(** X3: when every hand-off succeeds, as many timer periods as there are
    queued messages hand all of them to the channel in queue order, leave
    the buffer empty and clear the interval. *)
Theorem drain_in_order (c : conn) :
  loop_ok c ->
  let c' := run_ticks (replicate (length (_sendBuffer c)) true) c in
  channel c' = channel c ++ _sendBuffer c /\
  _sendBuffer c' = [] /\
  sendInterval c' = false.
Proof. intros Hc. by apply run_ticks_drain. Qed.

Lemma drain_in_order_witness :
  let c' := run_ticks (replicate (length (_sendBuffer queued_ab)) true) queued_ab in
  channel c' = channel queued_ab ++ _sendBuffer queued_ab /\
  _sendBuffer c' = [] /\
  sendInterval c' = false.
Proof. apply (drain_in_order queued_ab). reflexivity. Defined.

(** X4: when the hand-off of the head throws once and every later one
    succeeds, all that was queued behind the head reaches the channel
    before it; nothing is lost and the loop ends idle. *)
Theorem failed_head_goes_last (c : conn) (m : jsval) (q : list jsval) :
  loop_ok c ->
  _sendBuffer c = m :: q ->
  let c' := run_ticks (false :: replicate (S (length q)) true) c in
  channel c' = channel c ++ q ++ [m] /\
  _sendBuffer c' = [] /\
  sendInterval c' = false.
Proof.
  intros Hc Hq c'. subst c'. rewrite run_ticks_cons.
  pose proof (loop_ok_interval_fires false c Hc) as Hc1.
  unfold loop_ok in Hc. rewrite Hq in Hc.
  unfold interval_fires in *. rewrite Hc in *.
  destruct (tick_failed c m q Hq) as (Hb & Hch & _).
  destruct (run_ticks_drain (tick false c) Hc1) as (Hd1 & Hd2 & Hd3).
  rewrite Hb, length_app, Nat.add_1_r in Hd1, Hd2, Hd3.
  by rewrite Hd1, Hd2, Hd3, Hch.
Qed.

Lemma failed_head_goes_last_witness :
  let c' := run_ticks (false :: replicate (S (length [JStr "b"])) true) queued_ab in
  channel c' = channel queued_ab ++ [JStr "b"] ++ [JStr "a"] /\
  _sendBuffer c' = [] /\
  sendInterval c' = false.
Proof.
  apply (failed_head_goes_last queued_ab (JStr "a") [JStr "b"]); reflexivity.
Defined.

(** X5: while every hand-off throws, nothing reaches the channel, nothing
    is dropped and the interval stays as it is: after [k] periods the
    buffer is the queue rotated by [k], and after as many periods as
    there are messages it is the original queue again. *)
Theorem all_fail_rotates (k : nat) (c : conn) :
  loop_ok c ->
  (k <= length (_sendBuffer c))%nat ->
  let c' := run_ticks (replicate k false) c in
  channel c' = channel c /\
  _sendBuffer c' = drop k (_sendBuffer c) ++ take k (_sendBuffer c) /\
  sendInterval c' = sendInterval c.
Proof.
  revert c. induction k as [|k IH]; intros c Hc Hk c'; subst c'.
  - cbn. by rewrite drop_0, app_nil_r.
  - cbn [replicate]. rewrite run_ticks_cons.
    pose proof (loop_ok_interval_fires false c Hc) as Hc1.
    destruct (_sendBuffer c) as [|m q] eqn:Hq; [cbn in Hk; lia|].
    cbn [length] in Hk.
    unfold loop_ok in Hc. rewrite Hq in Hc.
    unfold interval_fires in *. rewrite Hc in *.
    destruct (tick_failed c m q Hq) as (Hb & Hch & Hi).
    destruct (IH (tick false c) Hc1) as (IH1 & IH2 & IH3).
    { rewrite Hb, length_app. cbn. lia. }
    rewrite IH1, IH2, IH3, Hb, Hch, Hi, Hc.
    split; [done|]. split; [|done].
    rewrite drop_app_le, take_app_le by lia. cbn [drop take].
    by rewrite <- app_assoc.
Qed.

Lemma all_fail_rotates_witness :
  let c' := run_ticks (replicate 2 false) queued_ab in
  channel c' = channel queued_ab /\
  _sendBuffer c'
  = drop 2 (_sendBuffer queued_ab) ++ take 2 (_sendBuffer queued_ab) /\
  sendInterval c' = sendInterval queued_ab.
Proof.
  apply (all_fail_rotates 2 queued_ab).
  - reflexivity.
  - simpl. lia.
Defined.

(** * More on [send] *)

Lemma run_ticks_emitted (oks : list bool) (c : conn) :
  emitted (run_ticks oks c) = emitted c.
Proof.
  revert c. induction oks as [|ok oks IH]; intros c; [done|].
  rewrite run_ticks_cons, IH. unfold interval_fires.
  destruct (sendInterval c); [|done]. unfold tick.
  destruct (shift (_sendBuffer c)) as [m rest].
  destruct ok; cbn; case_decide; done.
Qed.

Section SendMore.
Context {U : Util}.

Lemma send_keeps (id : string) (v : jsval) (c : conn) :
  let c' := (send id v c).1 in
  channel c' = channel c /\
  _receivedData c' = _receivedData c /\
  open c' = open c /\
  serialization c' = serialization c /\
  _queuedMessages c' = _queuedMessages c /\
  (open c = true -> emitted c' = emitted c).
Proof.
  cbn zeta. unfold send. destruct (open c) eqn:Ho; cbn [negb].
  - destruct (is_undefined_or_null v); [cbn; rewrite ?Ho; auto 10|].
    destruct (serialization c) eqn:Hs.
    + destruct (numSlices_of id v); cbn; rewrite ?Ho, ?Hs; auto 10.
    + destruct (numSlices_of id v); cbn; rewrite ?Ho, ?Hs; auto 10.
    + unfold _startSendLoop, push.
      destruct (JSON_stringify v); cbn; [|rewrite ?Ho, ?Hs; auto 10].
      destruct (sendInterval c); cbn; rewrite ?Ho, ?Hs; auto 10.
    + unfold _startSendLoop, push. cbn.
      destruct (sendInterval c); cbn; rewrite ?Ho, ?Hs; auto 10.
  - unfold emit. destruct (error_listener c); cbn; rewrite ?Ho;
      repeat split; done.
Qed.

Lemma send_all_keeps (calls : list (string * jsval)) (c : conn) :
  open c = true ->
  channel (send_all calls c) = channel c /\
  emitted (send_all calls c) = emitted c /\
  open (send_all calls c) = true /\
  serialization (send_all calls c) = serialization c /\
  (loop_ok c -> loop_ok (send_all calls c)).
Proof.
  revert c. induction calls as [|[id v] calls IH]; intros c Ho; [done|].
  unfold send_all in *. cbn [foldl fst snd].
  destruct (send_keeps id v c) as (H1 & _ & H3 & H4 & _ & H6).
  cbn zeta in *. rewrite Ho in H3.
  destruct (IH _ H3) as (I1 & I2 & I3 & I4 & I5).
  rewrite I1, I2, I3, I4, H1, H4, (H6 Ho).
  repeat split; try done.
  intros Hc. by apply I5, loop_ok_send.
Qed.

Lemma send_all_open_json (calls : list (string * jsval)) (texts : list jsval)
    (c : conn) :
  open c = true -> serialization c = json ->
  Forall2 (fun call text =>
             is_undefined_or_null call.2 = false /\
             JSON_stringify call.2 = Some text) calls texts ->
  _sendBuffer (send_all calls c) = _sendBuffer c ++ texts.
Proof.
  intros Ho Hs Hall. revert c Ho Hs.
  induction Hall as [|[id v] text calls texts [Hv Ht] _ IH]; intros c Ho Hs.
  - cbn. by rewrite app_nil_r.
  - cbn [snd] in Hv, Ht. unfold send_all in *. cbn [foldl fst snd].
    destruct (send_keeps id v c) as (_ & _ & H3 & H4 & _). cbn zeta in *.
    rewrite IH by congruence.
    unfold send. rewrite Ho, Hv, Hs, Ht. cbn [negb fst].
    unfold _startSendLoop, push. cbn.
    destruct (sendInterval c); cbn; by rewrite <- app_assoc.
Qed.

Lemma handle_all_none (msgs : list jsval) (c : conn) :
  serialization c = none ->
  handle_all msgs c = add_events (map EvData msgs) c.
Proof.
  revert c. induction msgs as [|msg msgs IH]; intros c Hs.
  - cbn. by rewrite add_events_nil.
  - unfold handle_all in *. cbn [foldl map].
    unfold _handleDataMessage at 2. rewrite Hs. cbn [emit fst].
    rewrite IH by done.
    by rewrite add_events_app.
Qed.

Lemma handle_all_json (texts values : list jsval) (c : conn) :
  serialization c = json ->
  Forall2 (fun text v => JSON_parse text = Some v) texts values ->
  handle_all texts c = add_events (map EvData values) c.
Proof.
  intros Hs Hall. revert c Hs.
  induction Hall as [|text v texts values Hp _ IH]; intros c Hs.
  - cbn. by rewrite add_events_nil.
  - unfold handle_all in *. cbn [foldl map].
    unfold _handleDataMessage at 2. rewrite Hs, Hp. cbn [emit fst].
    rewrite IH by done.
    by rewrite add_events_app.
Qed.

End SendMore.

(** X6: [send] hands nothing to the channel itself and touches neither
    the reassembly table, the open flag, the mode nor the queued
    messages; on an open connection it emits no event. *)
Theorem send_is_deferred `{U : Util} (id : string) (v : jsval) (c : conn) :
  let c' := (send id v c).1 in
  channel c' = channel c /\
  _receivedData c' = _receivedData c /\
  open c' = open c /\
  serialization c' = serialization c /\
  _queuedMessages c' = _queuedMessages c /\
  (open c = true -> emitted c' = emitted c).
Proof. apply send_keeps. Qed.

(** X7: in mode 'none', values sent on an open connection (none of them
    undefined or null) leave, when every hand-off succeeds, behind what
    was already queued and in the order of the calls, without any event
    on the sender; a receiver in mode 'none' given those messages emits
    one data event for each value, in that order. *)
Theorem none_mode_in_order `{U : Util}
    (calls : list (string * jsval)) (sender receiver : conn) :
  open sender = true ->
  serialization sender = none ->
  loop_ok sender ->
  Forall (fun call => is_undefined_or_null call.2 = false) calls ->
  serialization receiver = none ->
  let sent :=
    run_ticks (replicate (length (_sendBuffer sender) + length calls) true)
      (send_all calls sender) in
  channel sent = channel sender ++ _sendBuffer sender ++ map snd calls /\
  _sendBuffer sent = [] /\
  sendInterval sent = false /\
  emitted sent = emitted sender /\
  handle_all (map snd calls) receiver
  = add_events (map (fun call => EvData call.2) calls) receiver.
Proof.
  intros Ho Hs Hc Hall Hr sent. subst sent.
  destruct (send_all_keeps calls sender Ho) as (Hch & Hem & _ & _ & Hok).
  pose proof (send_all_open_none calls sender Ho Hs Hall) as Hbuf.
  destruct (run_ticks_drain (send_all calls sender) (Hok Hc)) as (D1 & D2 & D3).
  rewrite Hbuf, length_app, length_map in D1, D2, D3.
  rewrite D1, D2, D3, Hch. repeat split; try done.
  - by rewrite run_ticks_emitted.
  - rewrite handle_all_none by done. by rewrite map_map.
Qed.

Lemma none_mode_in_order_witness :
  let calls := [("id1", JStr "x"); ("id2", JNum 7)] in
  let sent :=
    run_ticks (replicate (length (_sendBuffer queued_ab) + length calls) true)
      (send_all (U := scenario) calls (queued_ab)) in
  channel sent = channel queued_ab ++ _sendBuffer queued_ab ++ map snd calls /\
  _sendBuffer sent = [] /\
  sendInterval sent = false /\
  emitted sent = emitted queued_ab /\
  handle_all (U := scenario) (map snd calls) (opened none)
  = add_events (map (fun call => EvData call.2) calls) (opened none).
Proof.
  apply (none_mode_in_order (U := scenario)
           [("id1", JStr "x"); ("id2", JNum 7)] queued_ab (opened none)).
  - reflexivity.
  - reflexivity.
  - reflexivity.
  - repeat constructor.
  - reflexivity.
Defined.

(** X8: in mode 'json', for values that [JSON.stringify] turns into
    texts that [JSON.parse] reads back as the same values, sending them
    on an idle open connection and letting every hand-off succeed puts
    exactly those texts on the channel, in the order of the calls, and a
    receiver in mode 'json' given the texts emits one data event for
    each original value, in that order. *)
Theorem json_round_trip `{U : Util}
    (calls : list (string * jsval)) (texts : list jsval)
    (sender receiver : conn) :
  open sender = true ->
  serialization sender = json ->
  _sendBuffer sender = [] ->
  loop_ok sender ->
  serialization receiver = json ->
  Forall2 (fun call text =>
             is_undefined_or_null call.2 = false /\
             JSON_stringify call.2 = Some text /\
             JSON_parse text = Some call.2) calls texts ->
  let sent := run_ticks (replicate (length calls) true) (send_all calls sender) in
  channel sent = channel sender ++ texts /\
  _sendBuffer sent = [] /\
  handle_all texts receiver
  = add_events (map (fun call => EvData call.2) calls) receiver.
Proof.
  intros Ho Hs Hempty Hc Hr Hall sent. subst sent.
  destruct (send_all_keeps calls sender Ho) as (Hch & _ & _ & _ & Hok).
  assert (Hall' : Forall2 (fun call text =>
                              is_undefined_or_null call.2 = false /\
                              JSON_stringify call.2 = Some text) calls texts).
  { eapply Forall2_impl; [exact Hall|]. cbn. tauto. }
  assert (Hbuf : _sendBuffer (send_all calls sender) = texts).
  { rewrite (send_all_open_json calls texts sender Ho Hs Hall').
    by rewrite Hempty. }
  destruct (run_ticks_drain (send_all calls sender) (Hok Hc)) as (D1 & D2 & _).
  rewrite Hbuf in D1, D2.
  rewrite <- (Forall2_length _ _ _ Hall) in D1, D2.
  rewrite D1, D2, Hch. repeat split; try done.
  rewrite <- map_map.
  apply handle_all_json; [done|].
  apply Forall2_fmap_r. eapply Forall2_flip, Forall2_impl; [exact Hall|].
  cbn. tauto.
Qed.

Lemma json_round_trip_witness :
  let calls := [("id1", JBool true); ("id2", JBool false)] in
  let texts := [JStr "true"; JStr "false"] in
  let sent :=
    run_ticks (replicate (length calls) true)
      (send_all (U := scenario) calls (opened json)) in
  channel sent = channel (opened json) ++ texts /\
  _sendBuffer sent = [] /\
  handle_all (U := scenario) texts (opened json)
  = add_events (map (fun call => EvData call.2) calls) (opened json).
Proof.
  apply (json_round_trip (U := scenario)
           [("id1", JBool true); ("id2", JBool false)]
           [JStr "true"; JStr "false"] (opened json) (opened json)).
  - reflexivity.
  - reflexivity.
  - reflexivity.
  - reflexivity.
  - reflexivity.
  - repeat constructor.
Defined.

(** * More on slicing *)

Lemma Blob_slice_range (b : blob) (lo hi : Z) :
  0 <= lo <= hi ->
  Blob_slice b lo hi = take (Z.to_nat (hi - lo)) (drop (Z.to_nat lo) b).
Proof.
  intros Hlo. unfold Blob_slice.
  destruct (Z.ltb_spec lo 0) as [?|_]; [lia|].
  destruct (Z.ltb_spec hi 0) as [?|_]; [lia|].
  destruct (decide (lo <= Z.of_nat (length b))) as [Hin|Hout].
  - replace (Z.min lo (Z.of_nat (length b))) with lo by lia.
    destruct (decide (hi <= Z.of_nat (length b))) as [Hhi|Hhi].
    + f_equal. lia.
    + rewrite !take_ge; [done| |]; rewrite length_drop; lia.
  - rewrite !(drop_ge b); [by rewrite !take_nil|lia|lia].
Qed.

Lemma slice_loop_concat (pd : blob) (m : dataMeta) (sz from : Z) (k : nat) :
  0 < sz -> 0 <= from ->
  concat (map data (slice_loop pd m sz from k))
  = take (k * Z.to_nat sz) (drop (Z.to_nat (from * sz)) pd).
Proof.
  intros Hsz. revert from. induction k as [|k IH]; intros from Hfrom.
  - done.
  - cbn [slice_loop map concat data]. rewrite IH by lia.
    rewrite Blob_slice_range by nia.
    replace (Z.to_nat ((from + 1) * sz))
      with (Z.to_nat (from * sz) + Z.to_nat sz)%nat by nia.
    rewrite <- drop_drop.
    replace (Z.to_nat ((from + 1) * sz - from * sz)) with (Z.to_nat sz) by nia.
    by rewrite take_take_drop.
Qed.

Section ChunkerMore.
Context {U : Util}.

Lemma numSlices_of_pos (id : string) (payload : jsval) :
  0 < chunkSize_of id payload ->
  numSlices_of id payload
  = Fin ((Z.of_nat (length (pack payload)) + chunkSize_of id payload - 1)
         / chunkSize_of id payload).
Proof.
  intros HC. unfold numSlices_of, Math_ceil_div. cbn [header dm_size].
  destruct (Z.eqb_spec (chunkSize_of id payload) 0) as [?|_]; [lia|].
  by rewrite ceil_div_pos.
Qed.

Lemma chunks_lookup (id : string) (payload : jsval) (n : Z) (i : nat) :
  0 < chunkSize_of id payload ->
  Z.of_nat i < n ->
  chunks id payload n !! i
  = Some {| meta := with_totalParts (Fin n) (header id payload);
            index := Z.of_nat i;
            data := take (Z.to_nat (chunkSize_of id payload))
                      (drop (i * Z.to_nat (chunkSize_of id payload))
                         (pack payload)) |}.
Proof.
  intros HC Hi. unfold chunks. rewrite slice_loop_lookup by lia.
  rewrite !Z.add_0_l, Blob_slice_range by nia.
  replace ((Z.of_nat i + 1) * chunkSize_of id payload
           - Z.of_nat i * chunkSize_of id payload)
    with (chunkSize_of id payload) by lia.
  by rewrite Z2Nat.inj_mul, Nat2Z.id by lia.
Qed.

Lemma chunks_length (id : string) (payload : jsval) (n : Z) :
  length (chunks id payload n) = Z.to_nat n.
Proof. apply slice_loop_length. Qed.

Lemma chunks_concat (id : string) (payload : jsval) :
  0 < chunkSize_of id payload ->
  concat (map data
            (chunks id payload
               ((Z.of_nat (length (pack payload)) + chunkSize_of id payload - 1)
                / chunkSize_of id payload)))
  = pack payload.
Proof.
  intros HC. unfold chunks.
  rewrite slice_loop_concat by lia. cbn [Z.mul Z.to_nat drop].
  destruct (ceil_div_bounds (Z.of_nat (length (pack payload)))
              (chunkSize_of id payload) HC) as (Hn & Hup & _); [lia|].
  apply take_ge. nia.
Qed.

(** The envelopes [send] builds are the envelopes of one transfer. *)
Lemma chunks_envelopes (id : string) (payload : jsval) (n : Z) :
  chunks id payload n
  = map (envelope (with_totalParts (Fin n) (header id payload))
           (map data (chunks id payload n)))
      (seq 0 (Z.to_nat n)).
Proof.
  apply list_eq. intros i.
  destruct (decide (i < Z.to_nat n)%nat) as [Hi|Hi].
  - unfold chunks at 1. rewrite slice_loop_lookup by done.
    rewrite list_lookup_fmap, lookup_seq_lt by done. cbn.
    unfold envelope. rewrite Z.add_0_l. do 2 f_equal.
    symmetry. apply list_lookup_total_correct.
    rewrite list_lookup_fmap. unfold chunks.
    rewrite slice_loop_lookup by done. cbn. by rewrite Z.add_0_l.
  - rewrite !lookup_ge_None_2; [done| |].
    + rewrite length_map, length_seq. lia.
    + rewrite chunks_length. lia.
Qed.

End ChunkerMore.

(** X9: with a positive chunk size, the data of the envelopes [send]
    builds, put end to end in index order, is the packed payload: the
    slices neither overlap nor leave a gap. *)
Theorem chunks_cover_payload `{U : Util} (id : string) (payload : jsval) :
  0 < chunkSize_of id payload ->
  exists n : Z,
    numSlices_of id payload = Fin n /\
    concat (map data (chunks id payload n)) = pack payload.
Proof.
  intros HC. eexists. split; [by apply numSlices_of_pos|].
  by apply chunks_concat.
Qed.

Lemma chunks_cover_payload_witness :
  exists n : Z,
    numSlices_of (U := scenario) "t" payload_2200 = Fin n /\
    concat (map data (chunks (U := scenario) "t" payload_2200 n))
    = pack (Util := scenario) payload_2200.
Proof.
  apply (chunks_cover_payload (U := scenario) "t" payload_2200).
  vm_compute. reflexivity.
Defined.

(** X10: with a positive chunk size [C], no envelope carries more than
    [C] bytes or no byte at all, and every envelope but the last carries
    exactly [C] bytes. *)
Theorem chunk_data_bounds `{U : Util}
    (id : string) (payload : jsval) (n : Z) (i : nat) (ch : chunk) :
  0 < chunkSize_of id payload ->
  numSlices_of id payload = Fin n ->
  chunks id payload n !! i = Some ch ->
  (1 <= length (data ch))%nat /\
  Z.of_nat (length (data ch)) <= chunkSize_of id payload /\
  (Z.of_nat i + 1 < n -> Z.of_nat (length (data ch)) = chunkSize_of id payload).
Proof.
  intros HC Hnum Hch.
  rewrite numSlices_of_pos in Hnum by done. injection Hnum as <-.
  set (S := Z.of_nat (length (pack payload))) in *.
  set (C := chunkSize_of id payload) in *.
  assert (Hi : Z.of_nat i < (S + C - 1) / C).
  { apply lookup_lt_Some in Hch. rewrite chunks_length in Hch. lia. }
  destruct (ceil_div_bounds S C HC) as (Hn & Hup & Hlow & Hpos); [lia|].
  cbn zeta in *.
  rewrite chunks_lookup in Hch by done. injection Hch as <-. cbn [data].
  fold C. rewrite length_take, length_drop. fold S in Hlow, Hpos |- *.
  assert (0 < S) by lia. specialize (Hlow ltac:(done)).
  repeat split; [nia|nia|]. intros Hnotlast. nia.
Qed.

Lemma chunk_data_bounds_witness :
  exists ch : chunk,
    chunks (U := scenario) "t" payload_2200 3 !! 2%nat = Some ch /\
    (1 <= length (data ch))%nat /\
    Z.of_nat (length (data ch)) <= chunkSize_of (U := scenario) "t" payload_2200 /\
    (Z.of_nat 2 + 1 < 3 ->
     Z.of_nat (length (data ch)) = chunkSize_of (U := scenario) "t" payload_2200).
Proof.
  eexists. split; [vm_compute; reflexivity|].
  apply (chunk_data_bounds (U := scenario) "t" payload_2200 3 2).
  - vm_compute. reflexivity.
  - vm_compute. reflexivity.
  - vm_compute. reflexivity.
Defined.

(** X11: in a binary mode, a value whose packed form is empty is dropped
    without a trace: [send] returns normally, builds no envelope, queues
    nothing and emits nothing, whatever the chunk size. *)
Theorem send_empty_packed_is_noop `{U : Util}
    (id : string) (payload : jsval) (c : conn) :
  open c = true ->
  is_undefined_or_null payload = false ->
  serialization c = binary \/ serialization c = binary_utf8 ->
  pack payload = [] ->
  send id payload c = (c, Normal).
Proof.
  intros Ho Hv Hs Hempty. rewrite send_binary_unfold by done.
  unfold numSlices_of, Math_ceil_div, chunks. cbn [header dm_size].
  rewrite Hempty. cbn [length Z.of_nat Z.eqb Z.opp].
  destruct (Z.eqb_spec (chunkSize_of id payload) 0) as [?|Hne]; [done|].
  rewrite Z.div_0_l by done. cbn. by rewrite set_reads_same.
Qed.

Lemma send_empty_packed_is_noop_witness :
  send (U := scenario) "t" (JStr "text") (opened binary) = (opened binary, Normal).
Proof.
  apply (send_empty_packed_is_noop (U := scenario) "t" (JStr "text") (opened binary)).
  - reflexivity.
  - reflexivity.
  - left. reflexivity.
  - reflexivity.
Defined.

(** * From [send] to the data event *)

Lemma reads_done_S (k : nat) (c : conn) :
  reads_done (S k) c = reads_done k (blobToArrayBuffer_done c).
Proof. unfold reads_done. apply Nat.iter_succ_r. Qed.

Lemma reads_done_all (rs : list blob) (c : conn) :
  reads c = rs ->
  _sendBuffer (reads_done (length rs) c) = _sendBuffer c ++ map JBuffer rs /\
  reads (reads_done (length rs) c) = [] /\
  channel (reads_done (length rs) c) = channel c /\
  (loop_ok c -> loop_ok (reads_done (length rs) c)).
Proof.
  revert c. induction rs as [|ab rs IH]; intros c Hrs.
  - cbn. by rewrite app_nil_r.
  - cbn [length]. rewrite reads_done_S.
    assert (Hstep : _sendBuffer (blobToArrayBuffer_done c) = _sendBuffer c ++ [JBuffer ab]
                    /\ reads (blobToArrayBuffer_done c) = rs
                    /\ channel (blobToArrayBuffer_done c) = channel c).
    { unfold blobToArrayBuffer_done, _startSendLoop, push. rewrite Hrs. cbn.
      by destruct (sendInterval c). }
    destruct Hstep as (Hb & Hr & Hch).
    destruct (IH _ Hr) as (I1 & I2 & I3 & I4).
    rewrite I1, I2, I3, Hb, Hch, <- app_assoc.
    repeat split; try done.
    intros Hc. by apply I4, loop_ok_blobToArrayBuffer_done.
Qed.

Lemma handle_all_binary `{U : Util} (msgs : list jsval) (c c' : conn) :
  serialization c = binary \/ serialization c = binary_utf8 ->
  deliver (map unpackChunk msgs) c = (c', Normal) ->
  handle_all msgs c = c'.
Proof.
  revert c. induction msgs as [|msg msgs IH]; intros c Hs Hd.
  - cbn in *. congruence.
  - unfold handle_all in *. cbn [foldl map deliver] in *.
    rewrite _handleDataMessage_binary by done.
    destruct (reassemble_frame (unpackChunk msg) c) as (Hser & _).
    cbn zeta in Hser.
    destruct (reassemble (unpackChunk msg) c) as [c1 r] eqn:Hre.
    cbn [fst] in *.
    destruct r; [|discriminate..].
    apply IH; [by rewrite Hser|done].
Qed.

(** X12: a value sent in a binary mode comes out the other end.  The
    sender is open and idle, the chunk size positive, the packed payload
    not empty, and each envelope built is read back from its packed form
    as it was.  After the reads finish and as many successful timer
    periods as there are envelopes, the channel has received that many
    new messages; a receiver in a binary mode that holds no entry for
    the id, which names no inherited member, and is given these messages
    in any order emits exactly one data event, the unpacked packed
    payload, and keeps no entry. *)
Theorem binary_round_trip `{U : Util}
    (id : string) (payload : jsval) (sender receiver : conn) :
  open sender = true ->
  is_undefined_or_null payload = false ->
  serialization sender = binary \/ serialization sender = binary_utf8 ->
  _sendBuffer sender = [] ->
  reads sender = [] ->
  loop_ok sender ->
  0 < chunkSize_of id payload ->
  pack payload <> [] ->
  let n := (Z.of_nat (length (pack payload)) + chunkSize_of id payload - 1)
           / chunkSize_of id payload in
  n < 2 ^ 32 ->
  Forall (fun ch => unpackChunk (JBuffer (packChunk ch)) = ch)
    (chunks id payload n) ->
  serialization receiver = binary \/ serialization receiver = binary_utf8 ->
  _receivedData receiver !! id = None ->
  inherited id = false ->
  let sent :=
    run_ticks (replicate (Z.to_nat n) true)
      (reads_done (Z.to_nat n) (send id payload sender).1) in
  exists new : list jsval,
    channel sent = channel sender ++ new /\
    length new = Z.to_nat n /\
    _sendBuffer sent = [] /\
    forall msgs : list jsval,
      msgs ≡ₚ new ->
      handle_all msgs receiver
      = add_events [EvData (unpack (pack payload))] receiver.
Proof.
  intros Ho Hv Hs Hbuf Hreads Hc HC Hne n Hn Hlaw Hr Hfresh Hown sent.
  set (chs := chunks id payload n) in *.
  assert (Hlen : length chs = Z.to_nat n) by apply chunks_length.
  assert (Hsend : send id payload sender
                  = (set_reads (map packChunk chs) sender, Normal)).
  { rewrite send_binary_unfold, numSlices_of_pos by done.
    by rewrite Hreads. }
  set (s1 := set_reads (map packChunk chs) sender).
  destruct (reads_done_all (map packChunk chs) s1 eq_refl)
    as (R1 & _ & R3 & R4).
  rewrite length_map, Hlen in R1, R3, R4.
  cbn [s1 set_reads _sendBuffer channel] in R1, R3. rewrite Hbuf in R1.
  cbn [app] in R1.
  destruct (run_ticks_drain (reads_done (Z.to_nat n) s1) (R4 Hc))
    as (D1 & D2 & _).
  rewrite R1, !length_map, Hlen in D1, D2. rewrite R3 in D1.
  exists (map JBuffer (map packChunk chs)).
  subst sent. rewrite Hsend. cbn [fst]. fold s1.
  split; [exact D1|]. split; [by rewrite !length_map|]. split; [exact D2|].
  intros msgs Hperm.
  rewrite map_map in Hperm.
  apply Permutation_map_inv in Hperm as (chs' & -> & Hperm).
  apply handle_all_binary; [done|].
  rewrite map_map.
  assert (Hlaw' : Forall (fun ch => unpackChunk (JBuffer (packChunk ch)) = ch) chs')
    by (by rewrite <- Hperm).
  assert (Hback : map (fun ch => unpackChunk (JBuffer (packChunk ch))) chs' = chs').
  { clear -Hlaw'. induction Hlaw' as [|ch l Hch _ IH]; [done|].
    cbn. by rewrite Hch, IH. }
  unfold compose. rewrite Hback. clear Hback Hlaw'.
  unfold chs in Hperm. rewrite chunks_envelopes in Hperm.
  symmetry in Hperm.
  apply Permutation_map_inv in Hperm as (order & -> & Hperm).
  rewrite <- (chunks_concat id payload HC). fold n chs.
  assert (Hsl : length (map data chs) = Z.to_nat n) by (by rewrite length_map).
  change (add_events [EvData (unpack (concat (map data chs)))] receiver, Normal)
    with (emit (EvData (unpack (concat (map data chs)))) receiver).
  apply deliver_all.
  - cbn. by rewrite Hsl, Z2Nat.id by (subst n; apply Z.div_pos; lia).
  - rewrite Hsl. lia.
  - done.
  - done.
  - rewrite Hsl.
    destruct (ceil_div_bounds (Z.of_nat (length (pack payload)))
                (chunkSize_of id payload) HC) as (_ & Hup & _); [lia|].
    fold n in Hup. destruct (pack payload); [done|]. cbn in Hup. nia.
  - rewrite Hsl. by symmetry.
Qed.

Lemma binary_round_trip_witness :
  let sent :=
    run_ticks (replicate 2 true)
      (reads_done 2 (send (U := framed) "t" payload_3 (opened binary)).1) in
  exists new : list jsval,
    channel sent = channel (opened binary) ++ new /\
    length new = 2%nat /\
    _sendBuffer sent = [] /\
    forall msgs : list jsval,
      msgs ≡ₚ new ->
      handle_all (U := framed) msgs (opened binary)
      = add_events
          [EvData (unpack (Util := framed) (pack (Util := framed) payload_3))]
          (opened binary).
Proof.
  apply (binary_round_trip (U := framed) "t" payload_3
           (opened binary) (opened binary)).
  - reflexivity.
  - reflexivity.
  - left. reflexivity.
  - reflexivity.
  - reflexivity.
  - reflexivity.
  - vm_compute. reflexivity.
  - discriminate.
  - vm_compute. reflexivity.
  - repeat constructor.
  - left. reflexivity.
  - reflexivity.
  - reflexivity.
Defined.

(** * More on reassembly *)

Section ReassemblyMore.
Context {U : Util}.

(** What one envelope does, case by case. *)
Lemma reassemble_cases (ch : chunk) (c : conn) :
  (currData_of ch c = NoArray /\ reassemble ch c = (c, Thrown "RangeError")) \/
  (currData_of ch c = Member /\ reassemble ch c = (c, Thrown "TypeError")) \/
  (exists t, currData_of ch c = Entry t /\
     is_complete (store ch t) = true /\
     reassemble ch c
     = (add_events [EvData (unpack (joinArrayBuffers (t_parts (store ch t))))]
          (set_receivedData (delete (dm_id (meta ch)) (_receivedData c)) c),
        Normal)) \/
  (exists t, currData_of ch c = Entry t /\
     is_complete (store ch t) = false /\
     reassemble ch c
     = (set_receivedData
          (<[dm_id (meta ch) := store ch t]> (_receivedData c)) c, Normal)).
Proof.
  unfold reassemble. destruct (currData_of ch c) as [t| |];
    [|by right; left|by left].
  destruct (is_complete (store ch t)) eqn:Hdone; right; right; [left|right];
    by exists t.
Qed.

Lemma reassemble_other (ch : chunk) (c : conn) (a : string) :
  dm_id (meta ch) <> a ->
  _receivedData (reassemble ch c).1 !! a = _receivedData c !! a.
Proof.
  intros Hne.
  destruct (reassemble_cases ch c)
    as [[_ ->]|[[_ ->]|[(t & _ & _ & ->)|(t & _ & _ & ->)]]]; cbn.
  - done.
  - done.
  - by rewrite lookup_delete_ne.
  - by rewrite lookup_insert_ne.
Qed.

Lemma currData_of_local (ch : chunk) (c1 c2 : conn) :
  _receivedData c1 !! dm_id (meta ch) = _receivedData c2 !! dm_id (meta ch) ->
  currData_of ch c1 = currData_of ch c2.
Proof. unfold currData_of. by intros ->. Qed.

Lemma step_events_cases (ch : chunk) (c : conn) :
  emitted (reassemble ch c).1 = emitted c ++ step_events ch c /\
  step_events ch c
  = match currData_of ch c with
    | Entry t =>
        if is_complete (store ch t)
        then [EvData (unpack (joinArrayBuffers (t_parts (store ch t))))]
        else []
    | _ => []
    end.
Proof.
  unfold step_events.
  destruct (reassemble_cases ch c)
    as [[-> ->]|[[-> ->]|[(t & -> & -> & ->)|(t & -> & -> & ->)]]]; cbn.
  - by rewrite drop_all, app_nil_r.
  - by rewrite drop_all, app_nil_r.
  - by rewrite drop_app_length.
  - by rewrite drop_all, app_nil_r.
Qed.

Lemma reassemble_local (ch : chunk) (c1 c2 : conn) :
  _receivedData c1 !! dm_id (meta ch) = _receivedData c2 !! dm_id (meta ch) ->
  (reassemble ch c1).2 = (reassemble ch c2).2 /\
  step_events ch c1 = step_events ch c2 /\
  _receivedData (reassemble ch c1).1 !! dm_id (meta ch)
  = _receivedData (reassemble ch c2).1 !! dm_id (meta ch).
Proof.
  intros Hsame. pose proof (currData_of_local ch c1 c2 Hsame) as Hcur.
  destruct (step_events_cases ch c1) as [_ ->].
  destruct (step_events_cases ch c2) as [_ ->].
  rewrite Hcur. split; [|split; [done|]].
  - destruct (reassemble_cases ch c1)
      as [[H1 ->]|[[H1 ->]|[(t1 & H1 & D1 & ->)|(t1 & H1 & D1 & ->)]]];
    destruct (reassemble_cases ch c2)
      as [[H2 ->]|[[H2 ->]|[(t2 & H2 & D2 & ->)|(t2 & H2 & D2 & ->)]]];
    cbn; congruence.
  - destruct (reassemble_cases ch c1)
      as [[H1 ->]|[[H1 ->]|[(t1 & H1 & D1 & ->)|(t1 & H1 & D1 & ->)]]];
    destruct (reassemble_cases ch c2)
      as [[H2 ->]|[[H2 ->]|[(t2 & H2 & D2 & ->)|(t2 & H2 & D2 & ->)]]];
    cbn; rewrite ?lookup_delete_eq, ?lookup_insert_eq; congruence.
Qed.

Lemma ingest_all_cons (ch : chunk) (chs : list chunk) (c : conn) :
  ingest_all (ch :: chs) c = ingest_all chs (reassemble ch c).1.
Proof. reflexivity. Qed.

End ReassemblyMore.

(** X13: envelopes interleave freely.  After any run of envelopes, the
    table entry of an id and the data events its envelopes gave rise to
    are those that the envelopes of that id alone, in the same relative
    order, would have produced. *)
Theorem transfers_do_not_interfere `{U : Util}
    (a : string) (chs : list chunk) (c : conn) :
  let own := filter (fun ch => dm_id (meta ch) = a) chs in
  _receivedData (ingest_all chs c) !! a = _receivedData (ingest_all own c) !! a /\
  events_of a chs c = events_of a own c.
Proof.
  cbn zeta.
  assert (Hgen : forall c1 c2,
    _receivedData c1 !! a = _receivedData c2 !! a ->
    _receivedData (ingest_all chs c1) !! a
    = _receivedData (ingest_all (filter (fun ch => dm_id (meta ch) = a) chs) c2) !! a /\
    events_of a chs c1
    = events_of a (filter (fun ch => dm_id (meta ch) = a) chs) c2).
  { induction chs as [|ch chs IH]; intros c1 c2 Hsame; [done|].
    rewrite ingest_all_cons. cbn [events_of].
    destruct (decide (dm_id (meta ch) = a)) as [Ha|Hna].
    - rewrite filter_cons_True by done. rewrite ingest_all_cons.
      cbn [events_of]. rewrite decide_True by done.
      rewrite <- Ha in Hsame.
      destruct (reassemble_local ch c1 c2 Hsame) as (_ & Hev & Htab).
      rewrite Ha in Htab.
      destruct (IH _ _ Htab) as [-> ->]. by rewrite Hev.
    - rewrite filter_cons_False by done.
      apply IH. by rewrite reassemble_other. }
  by apply Hgen.
Qed.

(** X14: whatever the message and the mode, the inbound handler adds at
    most one event, and only ever a data event.  In a binary mode, when
    it does, the entry of the envelope's id has left the table. *)
Theorem handler_emits_data_only `{U : Util} (msg_data : jsval) (c : conn) :
  let c' := (_handleDataMessage msg_data c).1 in
  emitted c' = emitted c \/
  exists v : jsval,
    emitted c' = emitted c ++ [EvData v] /\
    (serialization c = binary \/ serialization c = binary_utf8 ->
     _receivedData c' !! dm_id (meta (unpackChunk msg_data)) = None).
Proof.
  cbn zeta. unfold _handleDataMessage.
  assert (Hbin :
    emitted (reassemble (unpackChunk msg_data) c).1 = emitted c \/
    exists v, emitted (reassemble (unpackChunk msg_data) c).1
              = emitted c ++ [EvData v] /\
              _receivedData (reassemble (unpackChunk msg_data) c).1
                !! dm_id (meta (unpackChunk msg_data)) = None).
  { destruct (reassemble_cases (unpackChunk msg_data) c)
      as [[_ ->]|[[_ ->]|[(t & _ & _ & ->)|(t & _ & _ & ->)]]]; cbn;
      [by left|by left| |by left].
    right. eexists. split; [done|]. apply lookup_delete_eq. }
  destruct (serialization c) eqn:Hs.
  - destruct Hbin as [?|(v & ? & ?)]; [by left|right; by exists v].
  - destruct Hbin as [?|(v & ? & ?)]; [by left|right; by exists v].
  - destruct (JSON_parse msg_data) as [v|]; cbn; [|by left].
    right. exists v. split; [done|]. by intros [?|?].
  - right. exists msg_data. split; [done|]. by intros [?|?].
Qed.

Section TableInvariant.
Context {U : Util}.

Lemma store_entry_ok (ch : chunk) (t : transfer) :
  (exists n : Z,
     t_totalParts t = Fin n /\ 0 <= n < 2 ^ 32 /\
     0 <= t_receivedParts t /\ (t_receivedParts t < n \/ n = 0)) ->
  is_complete (store ch t) = false ->
  entry_ok (store ch t).
Proof.
  intros (n & Hn & Hrange & Hr & Hlt) Hdone. exists n.
  unfold is_complete in Hdone. cbn in *. rewrite Hn in Hdone.
  apply Z.eqb_neq in Hdone. repeat split; try done; lia.
Qed.

Lemma currData_of_ok (ch : chunk) (c : conn) (t : transfer) :
  table_ok c ->
  currData_of ch c = Entry t ->
  exists n : Z,
    t_totalParts t = Fin n /\ 0 <= n < 2 ^ 32 /\
    0 <= t_receivedParts t /\ (t_receivedParts t < n \/ n = 0).
Proof.
  intros Hok. unfold currData_of.
  destruct (_receivedData c !! dm_id (meta ch)) as [t'|] eqn:Hlook.
  - intros [= ->]. destruct (Hok _ _ Hlook) as (n & ? & ? & ? & ?).
    exists n. repeat split; try done; lia.
  - destruct (inherited (dm_id (meta ch))); [done|].
    unfold new_transfer, new_Array.
    destruct (dm_totalParts (meta ch)) as [n| | |]; try done.
    case_decide as Hn; [|done]. intros [= <-]. cbn.
    exists n. repeat split; try done; lia.
Qed.

Lemma table_ok_reassemble (ch : chunk) (c : conn) :
  table_ok c -> table_ok (reassemble ch c).1.
Proof.
  intros Hok.
  destruct (reassemble_cases ch c)
    as [[_ ->]|[[_ ->]|[(t & Hcur & _ & ->)|(t & Hcur & Hdone & ->)]]];
    unfold table_ok in *; cbn.
  - done.
  - done.
  - by apply map_Forall_delete.
  - apply map_Forall_insert_2; [|done].
    apply store_entry_ok; [|done]. by eapply currData_of_ok.
Qed.

End TableInvariant.

(** X15: every entry of the reassembly table has a valid [totalParts], a
    count of at least one and, unless it was announced with no part, a
    count below [totalParts]: a completed transfer never stays in the
    table.  The table of a new connection is empty, and an inbound
    message, [send], a finished read, a timer period and the channel
    opening all keep the property. *)
Theorem table_ok_preserved `{U : Util} (c : conn) :
  table_ok c ->
  (forall msg_data, table_ok (_handleDataMessage msg_data c).1) /\
  (forall id v, table_ok (send id v c).1) /\
  table_ok (blobToArrayBuffer_done c) /\
  (forall ok, table_ok (interval_fires ok c)) /\
  table_ok (onopen c).
Proof.
  intros Hok. repeat split.
  - intros msg_data. unfold _handleDataMessage.
    destruct (serialization c); try by apply table_ok_reassemble.
    + by destruct (JSON_parse msg_data).
    + done.
  - intros id v. unfold table_ok.
    destruct (send_keeps id v c) as (_ & -> & _). exact Hok.
  - unfold blobToArrayBuffer_done, _startSendLoop, push.
    destruct (reads c); [done|]. cbn. by destruct (sendInterval c).
  - intros ok. unfold interval_fires, tick.
    destruct (sendInterval c); [|done].
    destruct (shift (_sendBuffer c)) as [m rest].
    destruct ok; cbn; by case_decide.
  - done.
Qed.

Lemma table_ok_preserved_witness :
  (forall msg_data,
     table_ok (_handleDataMessage (U := scenario) msg_data (opened binary)).1) /\
  (forall id v, table_ok (send (U := scenario) id v (opened binary)).1) /\
  table_ok (blobToArrayBuffer_done (opened binary)) /\
  (forall ok, table_ok (interval_fires ok (opened binary))) /\
  table_ok (onopen (opened binary)).
Proof.
  apply (table_ok_preserved (U := scenario) (opened binary)).
  apply map_Forall_empty.
Defined.

(** X16: a transfer announced with [totalParts] 0, under an id that
    names no inherited member, never completes.  Its first envelope
    creates an entry, and whatever envelopes follow, of this or of any
    other id, the entry is still in the table, still with [totalParts]
    0, and none of its envelopes gives rise to an event. *)
Theorem zero_parts_never_completes `{U : Util}
    (ch : chunk) (more : list chunk) (c : conn) :
  _receivedData c !! dm_id (meta ch) = None ->
  inherited (dm_id (meta ch)) = false ->
  dm_totalParts (meta ch) = Fin 0 ->
  (exists t : transfer,
     _receivedData (ingest_all (ch :: more) c) !! dm_id (meta ch) = Some t /\
     t_totalParts t = Fin 0 /\
     t_receivedParts t
     = 1 + Z.of_nat (length (filter (fun ch' => dm_id (meta ch') = dm_id (meta ch))
                               more))) /\
  events_of (dm_id (meta ch)) (ch :: more) c = [].
Proof.
  intros Hfresh Hown Hzero.
  set (a := dm_id (meta ch)) in *.
  assert (Hgen : forall (chs : list chunk) (c1 : conn) (t1 : transfer),
    _receivedData c1 !! a = Some t1 ->
    t_totalParts t1 = Fin 0 -> 1 <= t_receivedParts t1 ->
    (exists t, _receivedData (ingest_all chs c1) !! a = Some t /\
       t_totalParts t = Fin 0 /\
       t_receivedParts t
       = t_receivedParts t1
         + Z.of_nat (length (filter (fun ch' => dm_id (meta ch') = a) chs))) /\
    events_of a chs c1 = []).
  { induction chs as [|ch' chs IH]; intros c1 t1 Hlook Htot Hr.
    - cbn. split; [|done]. exists t1. repeat split; try done. lia.
    - rewrite ingest_all_cons. cbn [events_of].
      destruct (decide (dm_id (meta ch') = a)) as [Ha|Hna].
      + rewrite filter_cons_True by done. cbn [length].
        assert (Hcur : currData_of ch' c1 = Entry t1)
          by (unfold currData_of; by rewrite Ha, Hlook).
        assert (Hdone : is_complete (store ch' t1) = false).
        { unfold is_complete. cbn. rewrite Htot. apply Z.eqb_neq. lia. }
        destruct (step_events_cases ch' c1) as [_ ->].
        rewrite Hcur, Hdone. cbn [app].
        destruct (reassemble_cases ch' c1)
          as [[? _]|[[? _]|[(t & ? & ? & _)|(t & Hc' & _ & ->)]]];
          try congruence.
        assert (t = t1) as -> by congruence. cbn [fst].
        destruct (IH (set_receivedData
                        (<[dm_id (meta ch') := store ch' t1]> (_receivedData c1)) c1)
                    (store ch' t1)) as [(t & H1 & H2 & H3) H4].
        * cbn. rewrite Ha. apply lookup_insert_eq.
        * done.
        * cbn. lia.
        * split; [|done]. exists t. repeat split; try done.
          rewrite H3. cbn. lia.
      + rewrite filter_cons_False by done. cbn [app].
        apply IH; try done. by rewrite reassemble_other. }
  rewrite ingest_all_cons. cbn [events_of]. rewrite decide_True by done.
  assert (Hnew : new_transfer (meta ch)
                 = Some {| t_size := dm_size (meta ch); t_type := dm_type (meta ch);
                           t_name := dm_name (meta ch);
                           t_mimeType := dm_mimeType (meta ch);
                           t_totalParts := Fin 0;
                           t_parts := {| elems := []; props := [] |};
                           t_receivedParts := 0 |}).
  { unfold new_transfer, new_Array. rewrite Hzero. by cbn. }
  assert (Hcur : currData_of ch c
                 = Entry {| t_size := dm_size (meta ch);
                            t_type := dm_type (meta ch);
                            t_name := dm_name (meta ch);
                            t_mimeType := dm_mimeType (meta ch);
                            t_totalParts := Fin 0;
                            t_parts := {| elems := []; props := [] |};
                            t_receivedParts := 0 |})
    by (unfold currData_of; fold a; by rewrite Hfresh, Hown, Hnew).
  destruct (step_events_cases ch c) as [_ ->]. rewrite Hcur.
  destruct (reassemble_cases ch c)
    as [[? _]|[[? _]|[(t & Hc' & Hd & _)|(t & Hc' & _ & ->)]]];
    try congruence.
  { assert (Ht : Entry t = Entry _) by (rewrite <- Hc'; exact Hcur).
    injection Ht as ->. discriminate. }
  assert (Ht : Entry t = Entry _) by (rewrite <- Hc'; exact Hcur).
  injection Ht as ->. cbn [fst is_complete store t_totalParts t_receivedParts].
  cbn [Z.add Z.eqb app].
  match goal with
  | |- context [set_receivedData (<[_ := ?t0]> _) c] => set (t1 := t0)
  end.
  destruct (Hgen more (set_receivedData (<[a := t1]> (_receivedData c)) c) t1)
    as [(t & H1 & H2 & H3) H4].
  - cbn. apply lookup_insert_eq.
  - done.
  - cbn. lia.
  - split; [|done]. exists t. by repeat split.
Qed.

Lemma zero_parts_never_completes_witness :
  let ch := {| meta := zero_parts; index := 0; data := [] |} in
  let more := [{| meta := two_parts; index := 0; data := [Byte.x01] |}; ch] in
  (exists t : transfer,
     _receivedData (ingest_all (U := scenario) (ch :: more) (opened binary))
       !! dm_id (meta ch) = Some t /\
     t_totalParts t = Fin 0 /\
     t_receivedParts t
     = 1 + Z.of_nat (length (filter (fun ch' => dm_id (meta ch') = dm_id (meta ch))
                               more))) /\
  events_of (U := scenario) (dm_id (meta ch)) (ch :: more) (opened binary) = [].
Proof.
  apply (zero_parts_never_completes (U := scenario)
           {| meta := zero_parts; index := 0; data := [] |}
           [{| meta := two_parts; index := 0; data := [Byte.x01] |};
            {| meta := zero_parts; index := 0; data := [] |}]
           (opened binary)).
  - reflexivity.
  - reflexivity.
  - reflexivity.
Defined.

(** X17: the first envelope of an id that names no inherited member and
    whose [totalParts] is not a valid array length (negative, 2^32 or
    more, infinite or not a number) makes the handler throw a
    RangeError; the connection is left exactly as it was, with no entry
    created and no event emitted. *)
Theorem invalid_totalParts_throws `{U : Util} (ch : chunk) (c : conn) :
  _receivedData c !! dm_id (meta ch) = None ->
  inherited (dm_id (meta ch)) = false ->
  (forall n : Z, dm_totalParts (meta ch) = Fin n -> n < 0 \/ 2 ^ 32 <= n) ->
  reassemble ch c = (c, Thrown "RangeError").
Proof.
  intros Hfresh Hown Hbad.
  unfold reassemble, currData_of, new_transfer, new_Array.
  rewrite Hfresh, Hown.
  destruct (dm_totalParts (meta ch)) as [n| | |]; try done.
  destruct (Hbad n eq_refl); by rewrite decide_False by lia.
Qed.

Lemma invalid_totalParts_throws_witness :
  reassemble (U := scenario)
    {| meta := minus_one_parts; index := 0; data := [] |} (opened binary)
  = (opened binary, Thrown "RangeError").
Proof.
  apply (invalid_totalParts_throws (U := scenario)
           {| meta := minus_one_parts; index := 0; data := [] |} (opened binary)).
  - reflexivity.
  - reflexivity.
  - intros n Hn. injection Hn as <-. left. lia.
Defined.

(** X18: the header of a transfer is taken from its first envelope only.
    Once an entry exists for an id, an envelope is handled according to
    its id, index and data alone: whatever [totalParts], size, type,
    name or content type it carries makes no difference. *)
Theorem later_headers_are_ignored `{U : Util} (ch ch' : chunk) (c : conn) :
  is_Some (_receivedData c !! dm_id (meta ch)) ->
  dm_id (meta ch') = dm_id (meta ch) ->
  index ch' = index ch ->
  data ch' = data ch ->
  reassemble ch' c = reassemble ch c.
Proof.
  intros [t Ht] Hid Hix Hdata.
  unfold reassemble, currData_of. rewrite Hid, Ht.
  unfold store. by rewrite Hix, Hdata.
Qed.

Lemma later_headers_are_ignored_witness :
  let c := (reassemble (U := scenario)
              {| meta := three_parts; index := 0; data := [Byte.x01] |}
              (opened binary)).1 in
  reassemble (U := scenario)
    {| meta := two_parts; index := 1; data := [Byte.x02] |} c
  = reassemble (U := scenario)
      {| meta := three_parts; index := 1; data := [Byte.x02] |} c.
Proof.
  apply (later_headers_are_ignored (U := scenario)
           {| meta := three_parts; index := 1; data := [Byte.x02] |}
           {| meta := two_parts; index := 1; data := [Byte.x02] |}).
  - eexists. vm_compute. reflexivity.
  - reflexivity.
  - reflexivity.
  - reflexivity.
Defined.

Lemma tick_fields (ok : bool) (c : conn) :
  serialization (tick ok c) = serialization c /\
  open (tick ok c) = open c /\
  _receivedData (tick ok c) = _receivedData c /\
  _queuedMessages (tick ok c) = _queuedMessages c /\
  reads (tick ok c) = reads c /\
  emitted (tick ok c) = emitted c.
Proof.
  unfold tick. destruct (shift (_sendBuffer c)) as [m rest].
  destruct ok; cbn; case_decide; done.
Qed.

(** X19: the inbound and the outbound side do not disturb each other.
    Handling a message after a timer period gives the same completion
    and the same connection as handling it before: the handler reads
    and writes the mode, the table and the events only, the send loop
    the buffer, the interval and the channel only. *)
Theorem handler_commutes_with_timer `{U : Util}
    (ok : bool) (msg_data : jsval) (c : conn) :
  _handleDataMessage msg_data (interval_fires ok c)
  = (interval_fires ok (_handleDataMessage msg_data c).1,
     (_handleDataMessage msg_data c).2).
Proof.
  unfold interval_fires.
  destruct (_handleDataMessage_frame msg_data c) as (_ & _ & _ & -> & _).
  destruct (sendInterval c); [|by destruct (_handleDataMessage msg_data c)].
  unfold _handleDataMessage.
  destruct (tick_fields ok c) as (Hser & _ & Htab & _). rewrite Hser.
  assert (Hre : forall ch,
    reassemble ch (tick ok c) = (tick ok (reassemble ch c).1, (reassemble ch c).2)).
  { intros ch. unfold reassemble, currData_of. rewrite Htab.
    destruct (_receivedData c !! dm_id (meta ch)) as [t|];
      [|destruct (inherited (dm_id (meta ch)));
        [|destruct (new_transfer (meta ch)) as [t|]]].
    all: try destruct (is_complete (store ch t)).
    all: cbn [fst snd emit]; f_equal; unfold tick; cbn;
      destruct (shift (_sendBuffer c)) as [m rest];
      destruct ok; cbn; case_decide; reflexivity. }
  destruct (serialization c); [apply Hre..| |].
  - destruct (JSON_parse msg_data); cbn [fst snd emit]; f_equal;
      unfold tick; cbn; destruct (shift (_sendBuffer c)) as [m rest];
      destruct ok; cbn; case_decide; reflexivity.
  - cbn [fst snd emit]. f_equal. unfold tick. cbn.
    destruct (shift (_sendBuffer c)) as [m rest].
    destruct ok; cbn; case_decide; reflexivity.
Qed.

Lemma deliver_ingest_all `{U : Util} (chs : list chunk) (c c' : conn) :
  deliver chs c = (c', Normal) -> ingest_all chs c = c'.
Proof.
  revert c. induction chs as [|ch chs IH]; intros c Hd.
  - cbn in *. congruence.
  - rewrite ingest_all_cons. cbn [deliver] in Hd.
    destruct (reassemble ch c) as [c1 []]; try discriminate.
    by apply IH.
Qed.

(** X20: completion goes by the number of envelopes, not by their
    indices.  For a transfer of [n] parts whose id names no inherited
    member and has no entry yet, and envelopes with indices below [n],
    distinct or not: after [k] of them, [0 < k < n], the entry holds a
    count of [k], and the [n]-th envelope removes the entry from the
    table. *)
Theorem nth_envelope_removes_entry `{U : Util}
    (m : dataMeta) (slices : list blob) (order : list nat) (c : conn) :
  dm_totalParts m = Fin (Z.of_nat (length slices)) ->
  Z.of_nat (length slices) < 2 ^ 32 ->
  _receivedData c !! dm_id m = None ->
  inherited (dm_id m) = false ->
  Forall (fun i => (i < length slices)%nat) order ->
  length order = length slices ->
  (forall k : nat, (0 < k < length slices)%nat ->
     exists t : transfer,
       _receivedData (ingest_all (map (envelope m slices) (take k order)) c)
         !! dm_id m = Some t /\
       t_receivedParts t = Z.of_nat k) /\
  (slices <> [] ->
   _receivedData (ingest_all (map (envelope m slices) order) c) !! dm_id m = None).
Proof.
  intros Htotal Hbound Hfresh Hown Hall Hlen. split.
  - intros k Hk.
    assert (Hd := deliver_partial m slices c Htotal Hbound Hfresh Hown
                    (take k order)).
    rewrite length_take, Hlen, Nat.min_l in Hd by lia.
    rewrite (deliver_ingest_all _ _ _ (Hd ltac:(destruct order; [cbn in Hlen; lia|];
                                               destruct k; [lia|done])
                                        ltac:(by apply Forall_take)
                                        ltac:(lia))).
    eexists. split; [apply lookup_insert_eq|done].
  - intros Hne.
    assert (Hn : (0 < length slices)%nat) by (destruct slices; [done|cbn; lia]).
    destruct (decide (order = [])) as [->|Hone]; [cbn in Hlen; lia|].
    destruct (exists_last Hone) as (init & j & ->).
    rewrite length_app in Hlen. cbn in Hlen.
    apply Forall_app in Hall as [Hinit Hj]. rewrite Forall_singleton in Hj.
    destruct init as [|i init].
    + cbn [app map]. rewrite ingest_all_cons.
      rewrite (reassemble_fresh m slices c Htotal Hbound Hfresh Hown j Hj).
      rewrite decide_True by (cbn in Hlen; lia). done.
    + rewrite map_app. unfold ingest_all. rewrite foldl_app.
      fold (ingest_all (map (envelope m slices) (i :: init)) c).
      rewrite (deliver_ingest_all _ _ _
                 (deliver_partial m slices c Htotal Hbound Hfresh Hown (i :: init)
                    ltac:(done) Hinit ltac:(lia))).
      cbn [map foldl].
      rewrite (reassemble_last m slices c Htotal Hbound Hfresh);
        [done|by rewrite fill_length, length_replicate|done|lia].
Qed.

Lemma nth_envelope_removes_entry_witness :
  let slices := [[Byte.x01]; [Byte.x02]; [Byte.x03]] in
  let order := [0%nat; 0%nat; 0%nat] in
  (forall k : nat, (0 < k < length slices)%nat ->
     exists t : transfer,
       _receivedData
         (ingest_all (U := scenario)
            (map (envelope three_parts slices) (take k order)) (opened binary))
         !! dm_id three_parts = Some t /\
       t_receivedParts t = Z.of_nat k) /\
  (slices <> [] ->
   _receivedData
     (ingest_all (U := scenario)
        (map (envelope three_parts slices) order) (opened binary))
     !! dm_id three_parts = None).
Proof.
  apply (nth_envelope_removes_entry (U := scenario) three_parts
           [[Byte.x01]; [Byte.x02]; [Byte.x03]] [0%nat; 0%nat; 0%nat]
           (opened binary)).
  - reflexivity.
  - vm_compute. reflexivity.
  - reflexivity.
  - reflexivity.
  - repeat constructor.
  - reflexivity.
Defined.
